(** * Samsung TV Plus playlist generator: model and verified properties

    A shallow embedding of [generate_samsung_tvplus.py].  The pure core
    (channel filter and playlist formatter) is embedded as functions on
    insertion-ordered dictionaries; the effectful shell (download, file
    writes, the top-level [main]) is embedded in a small state-and-exception
    monad over an explicit world.

    Modelling conventions.
    - Text is [string]; a character is read as a code point below 256, for
      which [str.lower] and [str.strip] are given exactly.
    - A Python [dict] is an association list in insertion order with
      pairwise distinct keys ([Dict.wf]); [sorted] relies on that order to
      break ties.
    - A JSON object field is an [option] exactly where the script reads it
      with [.get]; a field the script only ever indexes is mandatory.
      [None] stands for an absent key (or JSON null for [license_url]).
    - The channel number is an integer ([Z]) when present.
    - [str.format] on the catalog's slug template is a parameter of the
      formatter; gzip, the JSON parser, the HTTP server, the file system
      and the clock are the fields of an [environment]. *)

From Stdlib Require Import List String Ascii ZArith NArith Lia Bool.
From Stdlib Require Import Sorted Permutation DecimalString.
Import ListNotations.

#[local] Open Scope string_scope.
#[local] Open Scope Z_scope.
#[local] Open Scope list_scope.

(** ** Exceptions and results *)

Inductive exn : Type :=
| KeyError (key : string)
| FormatFieldError
| HTTPError (status_code : Z)
| RequestTimeout
| ConnectionError
| BadGzipFile
| JSONDecodeError
| OSError (path : string).

Inductive result (A : Type) : Type :=
| Ok (a : A)
| Raise (e : exn).

Arguments Ok {A} a.
Arguments Raise {A} e.

Definition rbind {A B : Type} (r : result A) (k : A -> result B) : result B :=
  match r with
  | Ok a => k a
  | Raise e => Raise e
  end.

Declare Scope result_scope.
Delimit Scope result_scope with result.
Notation "x <- r ;; k" := (rbind r (fun x => k))
  (at level 61, r at next level, right associativity) : result_scope.

(** ** Text primitives *)

Module Text.

Definition char (n : nat) : string := String (ascii_of_nat n) EmptyString.

(** The double quote and the line feed, which the playlist syntax uses. *)
Definition dq : string := char 34.
Definition nl : string := char 10.

Definition code (c : ascii) : N := N_of_ascii c.

(** [str.isspace] on one character. *)
Definition is_space (c : ascii) : bool :=
  let n := code c in
  ((9 <=? n) && (n <=? 13) || (28 <=? n) && (n <=? 32)
   || (n =? 133) || (n =? 160))%N.

(** Characters with a distinct lowercase: A-Z and the Latin-1 capitals. *)
Definition is_upper (c : ascii) : bool :=
  let n := code c in
  ((65 <=? n) && (n <=? 90)
   || (192 <=? n) && (n <=? 222) && negb (n =? 215))%N.

Definition lower_char (c : ascii) : ascii :=
  if is_upper c then ascii_of_N (code c + 32) else c.

(** [s.lower()] *)
Fixpoint lower (s : string) : string :=
  match s with
  | EmptyString => EmptyString
  | String c s' => String (lower_char c) (lower s')
  end.

(** [s.lstrip()] *)
Fixpoint lstrip (s : string) : string :=
  match s with
  | EmptyString => EmptyString
  | String c s' => if is_space c then lstrip s' else s
  end.

(** [s.rstrip()] *)
Fixpoint rstrip (s : string) : string :=
  match s with
  | EmptyString => EmptyString
  | String c s' =>
      match rstrip s' with
      | EmptyString => if is_space c then EmptyString else String c EmptyString
      | t => String c t
      end
  end.

(** [s.strip()] *)
Definition strip (s : string) : string := rstrip (lstrip s).

(** Texts made of whitespace, and texts with whitespace at an end. *)
Fixpoint all_space (s : string) : bool :=
  match s with
  | EmptyString => true
  | String c s' => is_space c && all_space s'
  end.

Definition starts_with_space (s : string) : bool :=
  match s with
  | String c _ => is_space c
  | EmptyString => false
  end.

Fixpoint ends_with_space (s : string) : bool :=
  match s with
  | EmptyString => false
  | String c EmptyString => is_space c
  | String _ s' => ends_with_space s'
  end.

(** [sep.join(l)] *)
Definition join (sep : string) (l : list string) : string :=
  String.concat sep l.

(** [str(n)] for an integer. *)
Definition str_of_int (n : Z) : string :=
  NilZero.string_of_int (Z.to_int n).

(** Truthiness of an optional text and of an optional integer, as in
    [if channel.get(k)]. *)
Definition truthy_str (o : option string) : bool :=
  match o with
  | Some (String _ _) => true
  | _ => false
  end.

Definition truthy_int (o : option Z) : bool :=
  match o with
  | Some n => negb (n =? 0)
  | None => false
  end.

(** [needle in hay] *)
Fixpoint contains (needle hay : string) : bool :=
  String.prefix needle hay
  || match hay with
     | EmptyString => false
     | String _ hay' => contains needle hay'
     end.

(** [hay.count(needle)] for a non-empty [needle]: the occurrences that do
    not overlap, scanning from the left; [skip] characters of the last
    occurrence are still to be passed. *)
Fixpoint count_from (needle hay : string) (skip : nat) : nat :=
  match hay with
  | EmptyString => O
  | String _ hay' =>
      match skip with
      | S k => count_from needle hay' k
      | O =>
          if String.prefix needle hay
          then S (count_from needle hay' (String.length needle - 1))
          else count_from needle hay' O
      end
  end.

Definition count (needle hay : string) : nat := count_from needle hay O.

(** Whether the character [c] occurs in [s]. *)
Fixpoint mentions (c : ascii) (s : string) : bool :=
  match s with
  | EmptyString => false
  | String x s' => Ascii.eqb x c || mentions c s'
  end.

(** Whether [s] is written with the characters of [alphabet] only. *)
Fixpoint all_in (alphabet s : string) : bool :=
  match s with
  | EmptyString => true
  | String x s' => mentions x alphabet && all_in alphabet s'
  end.

(** Whether [p] begins with a character that is not in [alphabet]. *)
Definition starts_outside (alphabet p : string) : bool :=
  match p with
  | EmptyString => false
  | String x _ => negb (mentions x alphabet)
  end.

(** Two texts are equal up to the case of their letters. *)
Inductive caseless_char : ascii -> ascii -> Prop :=
| cc_same c : caseless_char c c
| cc_up_low c : is_upper c = true -> caseless_char c (ascii_of_N (code c + 32))
| cc_low_up c : is_upper c = true -> caseless_char (ascii_of_N (code c + 32)) c.

Inductive caseless_eq : string -> string -> Prop :=
| ce_nil : caseless_eq EmptyString EmptyString
| ce_cons c1 c2 s1 s2 :
    caseless_char c1 c2 -> caseless_eq s1 s2 ->
    caseless_eq (String c1 s1) (String c2 s2).

End Text.

(** ** Insertion-ordered dictionaries *)

Module Dict.

Definition dict (V : Type) : Type := list (string * V).

Section Ops.
Context {V : Type}.

(** [d.get(k)] *)
Fixpoint get (k : string) (d : dict V) : option V :=
  match d with
  | [] => None
  | (k', v) :: d' => if String.eqb k k' then Some v else get k d'
  end.

(** [k in d] *)
Definition mem (k : string) (d : dict V) : bool :=
  match get k d with
  | Some _ => true
  | None => false
  end.

(** [d[k] = v]: an existing key keeps its position, a new key goes
    last. *)
Fixpoint set (k : string) (v : V) (d : dict V) : dict V :=
  match d with
  | [] => [(k, v)]
  | (k', v') :: d' =>
      if String.eqb k k' then (k', v) :: d' else (k', v') :: set k v d'
  end.

(** [d.update(other)] *)
Definition update (d other : dict V) : dict V :=
  fold_left (fun acc kv => set (fst kv) (snd kv) acc) other d.

(** [list(d.keys())] *)
Definition keys (d : dict V) : list string := map fst d.

(** The invariant of a Python dictionary: no key occurs twice. *)
Definition wf (d : dict V) : Prop := NoDup (keys d).

End Ops.

End Dict.

Import Text Dict.

(** ** Data model *)

Record channel : Type := mkChannel {
  name : string;
  logo : string;
  group : option string;
  chno : option Z;
  license_url : option string
}.

Record region : Type := mkRegion {
  channels : option (dict channel)
}.

Record catalog : Type := mkCatalog {
  regions : dict region;
  slug : string
}.

(** The module-level settings, as read from the environment at start-up. *)
Record config : Type := mkConfig {
  DEFAULT_REGIONS : string;
  DEFAULT_GROUPS : string;
  INCLUDE_DRM : bool;
  START_CHNO : Z;
  SORT_BY : string
}.

(** ** Channel filter *)

Definition list_string_eqb (a b : list string) : bool :=
  if list_eq_dec string_dec a b then true else false.

(** [data['regions'][region].get('channels', {})] *)
Definition region_channels (reg : region) : dict channel :=
  match channels reg with
  | Some cs => cs
  | None => []
  end.

(** One round of the loop of [filter_channels] over the selected regions. *)
Definition merge_step (data : catalog) (acc : dict channel) (r : string)
  : dict channel :=
  match Dict.get r (regions data) with
  | Some reg => Dict.update acc (region_channels reg)
  | None => acc
  end.

Definition merge_regions (data : catalog) (selected : list string)
  : dict channel :=
  fold_left (merge_step data) selected [].

(** The group label the filter compares: [channel.get('group', '')]. *)
Definition group_label (ch : channel) : string :=
  match group ch with
  | Some g => g
  | None => EmptyString
  end.

(** [channel.get('group', '').lower() in [g.lower() for g in groups]] *)
Definition group_selected (groups : list string) (ch : channel) : bool :=
  existsb (String.eqb (lower (group_label ch))) (map lower groups).

(** The group stage: with a non-empty selector the retained channels are
    copied, in iteration order, into a fresh dictionary. *)
Definition filter_groups (groups : list string) (chans : dict channel)
  : dict channel :=
  match groups with
  | _ :: _ =>
      fold_left
        (fun filtered_channels kv =>
           if group_selected groups (snd kv)
           then Dict.set (fst kv) (snd kv) filtered_channels
           else filtered_channels)
        chans []
  | [] => chans
  end.

(** [if regions == ['all']: regions = list(data['regions'].keys())] *)
Definition select_regions (data : catalog) (selected : list string)
  : list string :=
  if list_string_eqb selected ["all"%string]
  then Dict.keys (regions data) else selected.

Definition filter_channels (data : catalog) (selected groups : list string)
  : dict channel :=
  filter_groups groups (merge_regions data (select_regions data selected)).

(** ** Playlist formatter *)

(** [sorted(items, key=...)]: the stable ascending sort.  An item is inserted
    in front of the first item whose key is not smaller, so items with equal
    keys keep their input order. *)
Section StableSort.
Context {A K : Type}.
Variable leb : K -> K -> bool.
Variable key : A -> K.

Fixpoint insert_by (x : A) (l : list A) : list A :=
  match l with
  | [] => [x]
  | y :: l' =>
      if leb (key x) (key y) then x :: l else y :: insert_by x l'
  end.

Definition sorted (l : list A) : list A := fold_right insert_by [] l.
End StableSort.

(** One playlist entry: the values the loop body of
    [generate_m3u_playlist] holds when it formats its two lines. *)
Record entry : Type := mkEntry {
  tvg_id : string;
  tvg_name : string;
  tvg_logo : string;
  group_title : string;
  tvg_chno : Z;
  drm_license_url : option string;
  url : string
}.

(** The metadata line of an entry. *)
Definition extinf_line (e : entry) : string :=
  ("#EXTINF:-1 tvg-id=" ++ dq ++ tvg_id e ++ dq
   ++ " tvg-name=" ++ dq ++ tvg_name e ++ dq
   ++ " tvg-logo=" ++ dq ++ tvg_logo e ++ dq
   ++ " group-title=" ++ dq ++ group_title e ++ dq
   ++ " tvg-chno=" ++ dq ++ str_of_int (tvg_chno e) ++ dq
   ++ match drm_license_url e with
      | Some lic => " drm=" ++ dq ++ "true" ++ dq
                    ++ " license-url=" ++ dq ++ lic ++ dq
      | None => EmptyString
      end
   ++ "," ++ tvg_name e)%string.

Definition entry_lines (e : entry) : list string := [extinf_line e; url e].

Definition name_key (kv : string * channel) : string :=
  lower (strip (name (snd kv))).

Definition chno_key (kv : string * channel) : Z :=
  match chno (snd kv) with
  | Some n => n
  | None => 999999
  end.

Section Formatter.
(** [format_id template id] stands for [template.format(id=id)]; the
    formatter is verified for whatever that call does. *)
Variable format_id : string -> string -> result string.
Variable cfg : config.
Variable data : catalog.

Definition sort_channels (chans : dict channel) : list (string * channel) :=
  if String.eqb (SORT_BY cfg) "name"
  then sorted String.leb name_key chans
  else sorted Z.leb chno_key chans.

(** [channel.get('license_url') and not INCLUDE_DRM] *)
Definition skipped (ch : channel) : bool :=
  truthy_str (license_url ch) && negb (INCLUDE_DRM cfg).

(** [channel.get('chno') and START_CHNO == 1] *)
Definition keeps_native (ch : channel) : bool :=
  truthy_int (chno ch) && (START_CHNO cfg =? 1).

(** The body of the loop for a channel that is not skipped: the entry and
    the next value of [current_chno]. *)
Definition format_channel (channel_id : string) (ch : channel)
           (current_chno : Z) : result (entry * Z) :=
  (let name0 := name ch in
   let logo0 := logo ch in
   match group ch with
   | None => Raise (KeyError "group")
   | Some group0 =>
       s <- format_id (slug data) channel_id ;;
       let url0 := ("https://jmp2.uk/" ++ s)%string in
       let name1 :=
         if truthy_str (license_url ch)
         then (name0 ++ " [DRM]")%string else name0 in
       let '(n, next) :=
         if keeps_native ch
         then (match chno ch with Some n => n | None => 0 end, current_chno)
         else (current_chno, current_chno + 1) in
       let lic :=
         if truthy_str (license_url ch) then license_url ch else None in
       Ok (mkEntry channel_id name1 logo0 group0 n lic url0, next)
   end)%result.

Fixpoint playlist_loop (sorted_channels : list (string * channel))
         (current_chno : Z) : result (list entry) :=
  match sorted_channels with
  | [] => Ok []
  | (channel_id, ch) :: rest =>
      if skipped ch then playlist_loop rest current_chno
      else
        (en <- format_channel channel_id ch current_chno ;;
         es <- playlist_loop rest (snd en) ;;
         Ok (fst en :: es))%result
  end.

Definition playlist_entries (chans : dict channel) : result (list entry) :=
  playlist_loop (sort_channels chans) (START_CHNO cfg).

Definition generate_m3u_playlist (chans : dict channel) : result string :=
  (es <- playlist_entries chans ;;
   Ok (join nl ("#EXTM3U"%string :: flat_map entry_lines es)))%result.

End Formatter.

(** A [str.format] for templates made of literal text and [{id}] fields,
    such as "stvp-{id}"; it evaluates the formatter on concrete catalogs.
    Any other use of a brace, which Python reads as an escape or as a
    richer field, is rejected here. *)
Fixpoint format_id_simple (template id : string) : result string :=
  match template with
  | EmptyString => Ok EmptyString
  | String "{" (String "i" (String "d" (String "}" t))) =>
      (r <- format_id_simple t id ;; Ok (id ++ r)%string)%result
  | String "{" _ => Raise FormatFieldError
  | String "}" _ => Raise FormatFieldError
  | String c t =>
      (r <- format_id_simple t id ;; Ok (String c r))%result
  end.

(** ** The world of a run: network, files and console *)

Definition bytes : Type := list Byte.byte.

(** What [requests.get(url, timeout=TIMEOUT)] meets: a response with its
    status code and body, a connect or read timeout, or no connection. *)
Inductive http_outcome : Type :=
| Responds (status_code : Z) (content : bytes)
| TimesOut
| Unreachable.

(** What a file holds after a write.  The summary document is recorded by
    the timestamp and the settings it embeds. *)
Inductive file_content : Type :=
| TextFile (text : string)
| BinaryFile (data : bytes)
| SummaryFile (generated_on : string) (settings : config).

(** A line printed to the console.  Lines whose rendering is Python's own
    (the [repr] of a list, digit grouping, the text of an exception) are
    recorded by the value they show. *)
Inductive message : Type :=
| Say (line : string)
| SayRegions (selected : list string)
| SayGroups (groups : list string)
| SayEpgSize (size : nat)
| SayError (e : exn).

(** The surroundings of a run.  [server n url] is the outcome of the
    request for [url] made after [n] earlier requests; [gunzip] is gzip
    decompression and [json_loads] the JSON parser, [None] for a stream or
    document they reject; [writable] says whether a path can be created or
    opened for writing; [utcnow] is the formatted clock reading. *)
Record environment : Type := mkEnvironment {
  server : nat -> string -> http_outcome;
  gunzip : bytes -> option bytes;
  json_loads : bytes -> option catalog;
  writable : string -> bool;
  utcnow : string
}.

Record world : Type := mkWorld {
  files : dict file_content;
  stdout : list message;
  requests_sent : list string
}.

Definition say (m : message) (w : world) : world :=
  mkWorld (files w) (stdout w ++ [m]) (requests_sent w).

Definition log_request (url : string) (w : world) : world :=
  mkWorld (files w) (stdout w) (requests_sent w ++ [url]).

Definition store (path : string) (c : file_content) (w : world) : world :=
  mkWorld (Dict.set path c (files w)) (stdout w) (requests_sent w).

(** Computations that read and change the world and may raise; the world
    reached when an exception is raised is kept. *)
Definition M (A : Type) : Type := world -> result A * world.

Definition ret {A : Type} (a : A) : M A := fun w => (Ok a, w).

Definition raise {A : Type} (e : exn) : M A := fun w => (Raise e, w).

Definition lift {A : Type} (r : result A) : M A := fun w => (r, w).

Definition bind {A B : Type} (m : M A) (k : A -> M B) : M B :=
  fun w =>
    match m w with
    | (Ok a, w') => k a w'
    | (Raise e, w') => (Raise e, w')
    end.

(** [try: m  except Exception as e: handler e] *)
Definition try_except {A : Type} (m : M A) (handler : exn -> M A) : M A :=
  fun w =>
    match m w with
    | (Ok a, w') => (Ok a, w')
    | (Raise e, w') => handler e w'
    end.

Declare Scope run_scope.
Delimit Scope run_scope with run.
Notation "x <- m ;; k" := (bind m (fun x => k))
  (at level 61, m at next level, right associativity) : run_scope.
Notation "m ;; k" := (bind m (fun _ => k))
  (at level 61, right associativity) : run_scope.

Definition print (m : message) : M unit := fun w => (Ok tt, say m w).

(** ** Configuration constants *)

Definition APP_URL : string := "https://i.mjh.nz/SamsungTVPlus/.channels.json.gz".
Definition OUTPUT_DIR : string := "output".
Definition PLAYLIST_FILE : string := "samsung_tvplus.m3u".
Definition EPG_FILE : string := "samsung_tvplus.xml".

(** [EPG_URL.format(region=region)] *)
Definition EPG_URL (region_code : string) : string :=
  ("https://i.mjh.nz/SamsungTVPlus/" ++ region_code ++ ".xml.gz")%string.

(** [os.path.join(directory, file)] for a relative file name. *)
Definition path_join (directory file : string) : string :=
  (directory ++ "/" ++ file)%string.

(** ** Remote fetcher and catalog loader *)

Definition requests_get (env : environment) (url : string)
  : M (Z * bytes) :=
  fun w =>
    match server env (List.length (requests_sent w)) url with
    | Responds status_code content =>
        (Ok (status_code, content), log_request url w)
    | TimesOut => (Raise RequestTimeout, log_request url w)
    | Unreachable => (Raise ConnectionError, log_request url w)
    end.

(** [response.raise_for_status()]: the [requests] library raises
    [HTTPError] for the client and server error statuses, 400 to 599, and
    for no other status. *)
Definition raise_for_status (status_code : Z) : M unit :=
  if (400 <=? status_code) && (status_code <? 600)
  then raise (HTTPError status_code) else ret tt.

Definition download_and_decompress (env : environment) (url : string)
  : M bytes :=
  (print (Say ("Downloading " ++ url ++ "...")) ;;
   response <- requests_get env url ;;
   raise_for_status (fst response) ;;
   match gunzip env (snd response) with
   | Some content => ret content
   | None => raise BadGzipFile
   end)%run.

Definition get_channel_data (env : environment) : M catalog :=
  (json_data <- download_and_decompress env APP_URL ;;
   match json_loads env json_data with
   | Some data => ret data
   | None => raise JSONDecodeError
   end)%run.

Definition get_epg_data (env : environment) (region_code : string)
  : M bytes :=
  download_and_decompress env (EPG_URL region_code).

(** ** Output writer *)

(** [os.makedirs(path, exist_ok=True)] *)
Definition makedirs (env : environment) (path : string) : M unit :=
  if writable env path then ret tt else raise (OSError path).

(** [with open(path, mode) as f: f.write(content)] *)
Definition write_file (env : environment) (path : string)
           (c : file_content) : M unit :=
  fun w =>
    if writable env path then (Ok tt, store path c w)
    else (Raise (OSError path), w).

Definition save_files (env : environment) (playlist_content : string)
           (epg_content : bytes) : M (string * string) :=
  (makedirs env OUTPUT_DIR ;;
   let playlist_path := path_join OUTPUT_DIR PLAYLIST_FILE in
   write_file env playlist_path (TextFile playlist_content) ;;
   print (Say ("Saved playlist: " ++ playlist_path)) ;;
   let epg_path := path_join OUTPUT_DIR EPG_FILE in
   write_file env epg_path (BinaryFile epg_content) ;;
   print (Say ("Saved EPG: " ++ epg_path)) ;;
   ret (playlist_path, epg_path))%run.

Definition generate_readme (env : environment) (cfg : config) : M unit :=
  (let readme_path := path_join OUTPUT_DIR "README.md" in
   write_file env readme_path (SummaryFile (utcnow env) cfg) ;;
   print (Say ("Generated README: " ++ readme_path)))%run.

(** ** Top level *)

(** [s.split(sep)] for a one-character separator. *)
Fixpoint split_on (sep : ascii) (s : string) : list string :=
  match s with
  | EmptyString => [EmptyString]
  | String c s' =>
      if Ascii.eqb c sep then EmptyString :: split_on sep s'
      else
        match split_on sep s' with
        | t :: rest => String c t :: rest
        | [] => [String c EmptyString]
        end
  end.

(** [[x.strip() for x in s.split(',') if x.strip()]] *)
Definition parse_list (s : string) : list string :=
  filter (fun x => match x with EmptyString => false | _ => true end)
         (map strip (split_on "," s)).

(** [regions[0] if len(regions) == 1 and regions[0] != 'all' else 'all'] *)
Definition epg_region_of (selected : list string) : string :=
  match selected with
  | [r] => if String.eqb r "all" then "all"%string else r
  | _ => "all"%string
  end.

Definition str_of_bool (b : bool) : string :=
  if b then "True"%string else "False"%string.

Definition str_of_nat (n : nat) : string := str_of_int (Z.of_nat n).

Fixpoint repeat_str (s : string) (n : nat) : string :=
  match n with
  | O => EmptyString
  | S k => (s ++ repeat_str s k)%string
  end.

(** [regions] and [groups] as [main] parses them from the settings. *)
Definition selected_regions (cfg : config) : list string :=
  parse_list (DEFAULT_REGIONS cfg).

Definition selected_groups (cfg : config) : list string :=
  match DEFAULT_GROUPS cfg with
  | EmptyString => []
  | _ => parse_list (DEFAULT_GROUPS cfg)
  end.

Section Main.
Variable format_id : string -> string -> result string.
Variable env : environment.
Variable cfg : config.

(** The body of the [try] block of [main]. *)
Definition main_body : M unit :=
  (let selected := selected_regions cfg in
   let groups := selected_groups cfg in
   print (SayRegions selected) ;;
   print (match groups with
          | [] => Say "Groups: All"
          | _ => SayGroups groups
          end) ;;
   print (Say ("Include DRM: " ++ str_of_bool (INCLUDE_DRM cfg))) ;;
   print (Say ("Sort by: " ++ SORT_BY cfg)) ;;
   print (Say EmptyString) ;;
   data <- get_channel_data env ;;
   print (Say ("Downloaded channel data with "
               ++ str_of_nat (List.length (regions data)) ++ " regions")) ;;
   let chans := filter_channels data selected groups in
   print (Say ("Filtered to " ++ str_of_nat (List.length chans)
               ++ " channels")) ;;
   playlist_content <- lift (generate_m3u_playlist format_id cfg data chans) ;;
   let epg_region := epg_region_of selected in
   epg_content <- get_epg_data env epg_region ;;
   print (Say ("Downloaded EPG data for region: " ++ epg_region)) ;;
   _ <- save_files env playlist_content epg_content ;;
   generate_readme env cfg ;;
   print (Say (nl ++ "Generation completed successfully!")) ;;
   print (Say ("Files saved in 'output' directory")) ;;
   let playlist_lines := count nl playlist_content in
   let channel_count := count "#EXTINF" playlist_content in
   let drm_count := count "[DRM]" playlist_content in
   print (Say (nl ++ "Statistics:")) ;;
   print (Say ("- Total channels: " ++ str_of_nat channel_count)) ;;
   print (Say ("- DRM channels: " ++ str_of_nat drm_count)) ;;
   print (Say ("- Playlist lines: " ++ str_of_nat playlist_lines)) ;;
   print (SayEpgSize (List.length epg_content)))%run.

Definition main : M unit :=
  (print (Say "Samsung TV Plus M3U/EPG Generator for TiviMate") ;;
   print (Say (repeat_str "=" 50)) ;;
   try_except main_body (fun e => (print (SayError e) ;; raise e)%run))%run.

(** The exit status of the process: 0 when [main] returns, 1 when the
    exception it raises reaches the interpreter. *)
Definition exit_status (w : world) : Z :=
  match fst (main w) with
  | Ok _ => 0
  | Raise _ => 1
  end.

End Main.

(** ** Specification-level notions for the channel filter *)

(** Last write wins: the value of [k] in the last mapping that has it. *)
Fixpoint last_write (maps : list (dict channel)) (k : string)
  : option channel :=
  match maps with
  | [] => None
  | m :: rest =>
      match last_write rest k with
      | Some v => Some v
      | None => Dict.get k m
      end
  end.

(** The channel mappings of the regions, in catalog iteration order. *)
Definition catalog_maps (data : catalog) : list (dict channel) :=
  map (fun kv => region_channels (snd kv)) (regions data).

(** Every dictionary of a parsed catalog has pairwise distinct keys. *)
Definition catalog_wf (data : catalog) : Prop :=
  Dict.wf (regions data) /\ Forall Dict.wf (catalog_maps data).

(** The selected codes that name a region of the catalog. *)
Definition present_regions (data : catalog) (selected : list string)
  : list string :=
  filter (fun r => Dict.mem r (regions data)) selected.

(** ** Specification-level notions for the playlist formatter *)

(** [x] comes no later than [y] in the order of their sort keys. *)
Definition by_key {A K : Type} (leb : K -> K -> bool) (key : A -> K)
           (x y : A) : Prop :=
  leb (key x) (key y) = true.

(** The items whose sort key ties with [k]. *)
Definition ties_with {A K : Type} (leb : K -> K -> bool) (key : A -> K)
           (k : K) (x : A) : bool :=
  leb (key x) k && leb k (key x).

(** The channels that get an entry: the sorted channels that are not
    skipped, in sort order. *)
Definition emitted (cfg : config) (l : list (string * channel))
  : list (string * channel) :=
  filter (fun kv => negb (skipped cfg (snd kv))) l.

(** How many of the channels in [l] are numbered from the running
    counter. *)
Definition sequential_count (cfg : config) (l : list (string * channel))
  : Z :=
  Z.of_nat
    (List.length (filter (fun kv => negb (keeps_native cfg (snd kv))) l)).

(** The numbering rule read literally: with a start of 1, every channel
    that has a number keeps it. *)
Definition native_number_kept (cfg : config)
           (out : list (string * channel)) (es : list entry) : Prop :=
  START_CHNO cfg = 1 ->
  forall i kv e n,
    nth_error out i = Some kv -> nth_error es i = Some e ->
    chno (snd kv) = Some n -> tvg_chno e = n.

(** The sort rule read literally: every channel without a number comes
    after every channel that has one. *)
Definition unnumbered_last (out : list (string * channel)) : Prop :=
  forall i j a b,
    nth_error out i = Some a -> nth_error out j = Some b ->
    chno (snd a) = None -> chno (snd b) <> None -> (j < i)%nat.

(** The DRM rule read literally, on the playlist text: it shows neither the
    marker nor a licence attribute. *)
Definition drm_free_text (text : string) : Prop :=
  contains "[DRM]" text = false /\ contains "license-url=" text = false.

(** A text [p] that the fixed parts of a plain playlist cannot produce: it
    has no quote, line feed or comma, does not begin like a number, and
    occurs in none of the keywords. *)
Definition foreign_to_syntax (p : string) : bool :=
  negb (mentions (ascii_of_nat 34) p)
  && negb (mentions (ascii_of_nat 10) p)
  && negb (mentions "," p)
  && starts_outside "-0123456789" p
  && negb (contains p "#EXTM3U")
  && negb (contains p "#EXTINF:-1 tvg-id=")
  && negb (contains p " tvg-name=")
  && negb (contains p " tvg-logo=")
  && negb (contains p " group-title=")
  && negb (contains p " tvg-chno=").

(** The channel [kv] shows the text [p] in none of the values the
    formatter copies into its entry. *)
Definition channel_free_of (p : string)
           (format_id : string -> string -> result string)
           (data : catalog) (kv : string * channel) : Prop :=
  contains p (fst kv) = false
  /\ contains p (name (snd kv)) = false
  /\ contains p (logo (snd kv)) = false
  /\ contains p (group_label (snd kv)) = false
  /\ forall s,
      format_id (slug data) (fst kv) = Ok s ->
      contains p ("https://jmp2.uk/" ++ s)%string = false.

(** The metadata line of an entry without DRM attributes. *)
Definition plain_extinf_line (e : entry) : string :=
  ("#EXTINF:-1 tvg-id=" ++ dq ++ tvg_id e ++ dq
   ++ " tvg-name=" ++ dq ++ tvg_name e ++ dq
   ++ " tvg-logo=" ++ dq ++ tvg_logo e ++ dq
   ++ " group-title=" ++ dq ++ group_title e ++ dq
   ++ " tvg-chno=" ++ dq ++ str_of_int (tvg_chno e) ++ dq
   ++ "," ++ tvg_name e)%string.

(** The entry [e] is the plain entry of the channel [kv]: its fields are
    those of the channel, unchanged, and it has no DRM attributes. *)
Definition plain_entry_of (format_id : string -> string -> result string)
           (data : catalog) (kv : string * channel) (e : entry) : Prop :=
  tvg_id e = fst kv
  /\ tvg_name e = name (snd kv)
  /\ tvg_logo e = logo (snd kv)
  /\ group (snd kv) = Some (group_title e)
  /\ drm_license_url e = None
  /\ (exists s, format_id (slug data) (fst kv) = Ok s
                /\ url e = ("https://jmp2.uk/" ++ s)%string)
  /\ extinf_line e = plain_extinf_line e.


(** ** Specification-level notions for the run *)

(** The result of fetching [url] as the request number [n] of the run. *)
Definition fetch_result (env : environment) (n : nat) (url : string)
  : result bytes :=
  match server env n url with
  | Responds status_code content =>
      if (400 <=? status_code) && (status_code <? 600)
      then Raise (HTTPError status_code)
      else
        match gunzip env content with
        | Some b => Ok b
        | None => Raise BadGzipFile
        end
  | TimesOut => Raise RequestTimeout
  | Unreachable => Raise ConnectionError
  end.

(** The result of loading the catalog with the request number [n]. *)
Definition catalog_result (env : environment) (n : nat) : result catalog :=
  match fetch_result env n APP_URL with
  | Ok json_data =>
      match json_loads env json_data with
      | Some data => Ok data
      | None => Raise JSONDecodeError
      end
  | Raise e => Raise e
  end.

(** The world after the console line and the request of one download. *)
Definition downloaded (url : string) (w : world) : world :=
  log_request url (say (Say ("Downloading " ++ url ++ "...")) w).

(** The fetcher rule read literally: any response whose status is not 2xx
    makes the download raise. *)
Definition raises_on_non_2xx (env : environment) : Prop :=
  forall url w status_code content,
    server env (List.length (requests_sent w)) url
    = Responds status_code content ->
    ~ (200 <= status_code < 300) ->
    exists e, fst (download_and_decompress env url w) = Raise e.

Definition PLAYLIST_PATH : string := path_join OUTPUT_DIR PLAYLIST_FILE.
Definition EPG_PATH : string := path_join OUTPUT_DIR EPG_FILE.
Definition README_PATH : string := path_join OUTPUT_DIR "README.md".

(** The guide URL a run with the settings [cfg] requests. *)
Definition guide_url (cfg : config) : string :=
  EPG_URL (epg_region_of (selected_regions cfg)).

(** Whether [path] can be written, as a result. *)
Definition can_write (env : environment) (path : string) : result unit :=
  if writable env path then Ok tt else Raise (OSError path).

(** The playlist text of a run whose catalog is [data]. *)
Definition playlist_of (format_id : string -> string -> result string)
           (cfg : config) (data : catalog) : result string :=
  generate_m3u_playlist format_id cfg data
    (filter_channels data (selected_regions cfg) (selected_groups cfg)).

(** The stages of a run in order, each consulted once; the first one that
    fails decides the result.  [n] requests were made before the run. *)
Definition run_result (format_id : string -> string -> result string)
           (env : environment) (cfg : config) (n : nat) : result unit :=
  (data <- catalog_result env n ;;
   _ <- playlist_of format_id cfg data ;;
   _ <- fetch_result env (S n) (guide_url cfg) ;;
   _ <- can_write env OUTPUT_DIR ;;
   _ <- can_write env PLAYLIST_PATH ;;
   _ <- can_write env EPG_PATH ;;
   can_write env README_PATH)%result.

(** ** Example data *)

Module Examples.

(** The two-region catalog of the specification's scenarios. *)
Definition channel_a : channel :=
  mkChannel "A" "a.png" (Some "News"%string) None None.
Definition channel_b : channel :=
  mkChannel "B" "b.png" (Some "Sport"%string) None
            (Some "http://x"%string).
Definition scenario : catalog :=
  mkCatalog
    [("us"%string, mkRegion (Some [("1"%string, channel_a)]));
     ("uk"%string, mkRegion (Some [("2"%string, channel_b)]))]
    "stvp-{id}".

Definition defaults : config := mkConfig "all" EmptyString true 1 "chno".
Definition no_drm : config := mkConfig "all" EmptyString false 1 "chno".
Definition by_name : config := mkConfig "all" EmptyString true 1 "name".
Definition from_5 : config := mkConfig "all" EmptyString true 5 "chno".

(** Channels with the numbers 0 and 5 and one without a number. *)
Definition numbered (n : Z) (nm : string) : channel :=
  mkChannel nm "x.png" (Some "News"%string) (Some n) None.
Definition mixed_numbers : dict channel :=
  [("z"%string, numbered 0 "Zero"); ("f"%string, numbered 5 "Five");
   ("n"%string, channel_a)].

(** A channel without licence whose own name ends in the marker. *)
Definition marker_in_name : dict channel :=
  [("q"%string,
    mkChannel "Quiz [DRM]" "q.png" (Some "News"%string) None None)].

(** A channel numbered above the sentinel, after one without number. *)
Definition beyond_sentinel : dict channel :=
  [("a"%string, channel_a); ("b"%string, numbered 1000000 "Big")].

(** Placeholders for the documents on the wire: the compressed catalog and
    guide, and what they decompress to. *)
Definition catalog_gz : bytes := [Byte.x1f; Byte.x8b; Byte.x01].
Definition catalog_json : bytes := [Byte.x7b; Byte.x7d].
Definition epg_gz : bytes := [Byte.x1f; Byte.x8b; Byte.x02].
Definition epg_xml : bytes := [Byte.x3c; Byte.x74; Byte.x76; Byte.x2f; Byte.x3e].

Fixpoint bytes_eqb (a b : bytes) : bool :=
  match a, b with
  | [], [] => true
  | x :: a', y :: b' => Byte.eqb x y && bytes_eqb a' b'
  | _, _ => false
  end.

(** Decompression on the placeholders; the empty stream decompresses to the
    empty byte string, as with [gzip.GzipFile]. *)
Definition gunzip_stub (b : bytes) : option bytes :=
  if bytes_eqb b catalog_gz then Some catalog_json
  else if bytes_eqb b epg_gz then Some epg_xml
  else match b with [] => Some [] | _ => None end.

Definition json_stub (b : bytes) : option catalog :=
  if bytes_eqb b catalog_json then Some scenario else None.

(** Both endpoints answer 200 and every path is writable. *)
Definition healthy : environment :=
  mkEnvironment
    (fun _ url =>
       if String.eqb url APP_URL then Responds 200 catalog_gz
       else Responds 200 epg_gz)
    gunzip_stub json_stub (fun _ => true) "2024-01-01 00:00:00".

(** The guide endpoint answers 304 Not Modified with an empty body. *)
Definition not_modified : environment :=
  mkEnvironment
    (fun _ url =>
       if String.eqb url APP_URL then Responds 200 catalog_gz
       else Responds 304 [])
    gunzip_stub json_stub (fun _ => true) "2024-01-01 00:00:00".

(** The catalog endpoint times out on the first request and would answer
    from the second request on. *)
Definition flaky : environment :=
  mkEnvironment
    (fun n url =>
       match n with
       | O => TimesOut
       | S _ =>
           if String.eqb url APP_URL then Responds 200 catalog_gz
           else Responds 200 epg_gz
       end)
    gunzip_stub json_stub (fun _ => true) "2024-01-01 00:00:00".

Definition fresh : world := mkWorld [] [] [].

(** The entries the formatter returns, and none when it raises. *)
Definition entries_of (cfg : config) (data : catalog) (chans : dict channel)
  : list entry :=
  match playlist_entries format_id_simple cfg data chans with
  | Ok es => es
  | Raise _ => []
  end.

End Examples.

(** [os.getenv(name, default)] on the process environment [environ]. *)
Definition getenv_or (environ : string -> option string)
           (name default : string) : string :=
  match environ name with
  | Some value => value
  | None => default
  end.

(** [INCLUDE_DRM = os.getenv('INCLUDE_DRM', 'true').lower() == 'true'] *)
Definition include_drm_setting (environ : string -> option string) : bool :=
  String.eqb (lower (getenv_or environ "INCLUDE_DRM" "true")) "true".

(** A selector item as [main] keeps it: not empty, no comma, no whitespace
    at either end. *)
Definition clean_item (x : string) : Prop :=
  x <> EmptyString
  /\ mentions "," x = false
  /\ starts_with_space x = false
  /\ ends_with_space x = false.

(** The channel mappings of the selected codes that name a region of the
    catalog, in the order of the selector. *)
Definition selected_maps (data : catalog) (selected : list string)
  : list (dict channel) :=
  flat_map
    (fun r =>
       match Dict.get r (regions data) with
       | Some reg => [region_channels reg]
       | None => []
       end)
    selected.

(** The entry [e] is the entry of the channel [kv] when no channel is
    skipped: the marker and the licence attribute go with a non-empty
    licence URL. *)
Definition marked_entry_of (kv : string * channel) (e : entry) : Prop :=
  tvg_id e = fst kv
  /\ tvg_logo e = logo (snd kv)
  /\ group (snd kv) = Some (group_title e)
  /\ if truthy_str (license_url (snd kv))
     then tvg_name e = (name (snd kv) ++ " [DRM]")%string
          /\ drm_license_url e = license_url (snd kv)
     else tvg_name e = name (snd kv) /\ drm_license_url e = None.

(** The channel [kv] shows the text [p] in none of the values the
    formatter copies, its licence URL included. *)
Definition channel_values_free_of (p : string)
           (format_id : string -> string -> result string)
           (data : catalog) (kv : string * channel) : Prop :=
  channel_free_of p format_id data kv
  /\ forall lic, license_url (snd kv) = Some lic -> contains p lic = false.

(** Whether a channel has a non-empty licence URL. *)
Definition has_license (kv : string * channel) : bool :=
  truthy_str (license_url (snd kv)).

(** A text that no quote, line feed, comma or space can be part of and
    that does not begin like a number: the playlist syntax cannot join two
    values into an occurrence of it. *)
Definition separable (p : string) : bool :=
  negb (mentions (ascii_of_nat 34) p)
  && negb (mentions (ascii_of_nat 10) p)
  && negb (mentions "," p)
  && negb (mentions " " p)
  && starts_outside "-0123456789" p.

(** The occurrences of [p] in the keywords of every metadata line, and in
    what a DRM entry adds: the marker, twice, and the DRM attributes. *)
Definition keyword_count (p : string) : nat :=
  (count p "#EXTINF:-1 tvg-id=" + count p " tvg-name="
   + count p " tvg-logo=" + count p " group-title="
   + count p " tvg-chno=")%nat.

Definition drm_keyword_count (p : string) : nat :=
  (2 * count p "[DRM]" + count p " drm=" + count p "true"
   + count p " license-url=")%nat.

(** The playlist text the formatter returns on example data, and the empty
    text when it raises. *)
Definition example_playlist (cfg : config) (data : catalog)
           (chans : dict channel) : string :=
  match generate_m3u_playlist format_id_simple cfg data chans with
  | Ok text => text
  | Raise _ => EmptyString
  end.


(** The three paths a run writes. *)
Definition output_paths : list string :=
  [PLAYLIST_PATH; EPG_PATH; README_PATH].

(** Two environments that answer alike, whatever the number of earlier
    requests, and differ at most in the clock reading. *)
Definition same_answers (env1 env2 : environment) : Prop :=
  (forall n m url, server env2 n url = server env1 m url)
  /\ (forall b, gunzip env2 b = gunzip env1 b)
  /\ (forall b, json_loads env2 b = json_loads env1 b)
  /\ (forall path, writable env2 path = writable env1 path).

(** Every path can be written but the guide file. *)
Definition guide_read_only : environment :=
  mkEnvironment
    (server Examples.healthy) (gunzip Examples.healthy)
    (json_loads Examples.healthy)
    (fun path => negb (String.eqb path EPG_PATH))
    (utcnow Examples.healthy).

(** The same answers as [Examples.healthy] a day later. *)
Definition next_day : environment :=
  mkEnvironment
    (server Examples.healthy) (gunzip Examples.healthy)
    (json_loads Examples.healthy) (writable Examples.healthy)
    "2024-01-02 00:00:00".

(** * Verified properties *)

(** ** Dictionaries *)

Section DictFacts.
Context {V : Type}.
Implicit Types (d o : dict V) (k : string) (v : V).

Lemma get_set_same k v d : Dict.get k (Dict.set k v d) = Some v.
Proof.
  induction d as [|[k' v'] d IH]; simpl.
  - now rewrite String.eqb_refl.
  - destruct (String.eqb k k') eqn:E; simpl; rewrite E; auto.
Qed.

Lemma get_set_other k k' v d :
  k <> k' -> Dict.get k' (Dict.set k v d) = Dict.get k' d.
Proof.
  intros N; induction d as [|[k0 v0] d IH]; simpl.
  - destruct (String.eqb k' k) eqn:E; auto.
    apply String.eqb_eq in E; congruence.
  - destruct (String.eqb k k0) eqn:E; simpl.
    + apply String.eqb_eq in E; subst k0.
      destruct (String.eqb k' k) eqn:E'; auto.
      apply String.eqb_eq in E'; congruence.
    + now rewrite IH.
Qed.

Lemma get_None_keys k d : Dict.get k d = None <-> ~ In k (Dict.keys d).
Proof.
  induction d as [|[k' v'] d IH]; simpl.
  - tauto.
  - destruct (String.eqb k k') eqn:E.
    + apply String.eqb_eq in E; subst. split; [discriminate | tauto].
    + apply String.eqb_neq in E. rewrite IH. intuition congruence.
Qed.

Lemma mem_keys k d : Dict.mem k d = true <-> In k (Dict.keys d).
Proof.
  unfold Dict.mem. destruct (Dict.get k d) eqn:E.
  - split; auto. intros _.
    destruct (in_dec string_dec k (Dict.keys d)) as [|N]; auto.
    apply get_None_keys in N; congruence.
  - apply get_None_keys in E. split; [discriminate | tauto].
Qed.

Lemma get_In k v d : Dict.get k d = Some v -> In (k, v) d.
Proof.
  induction d as [|[k' v'] d IH]; simpl; [discriminate|].
  destruct (String.eqb k k') eqn:E; auto.
  apply String.eqb_eq in E; subst. intros [= ->]; auto.
Qed.

Lemma In_get_wf k v d : Dict.wf d -> In (k, v) d -> Dict.get k d = Some v.
Proof.
  unfold Dict.wf. induction d as [|[k' v'] d IH]; simpl; [tauto|].
  intros W [[= -> ->]|I].
  - now rewrite String.eqb_refl.
  - inversion W as [|? ? N W']; subst.
    destruct (String.eqb k k') eqn:E; auto.
    apply String.eqb_eq in E; subst. exfalso; apply N.
    change k' with (fst (k', v)). now apply in_map.
Qed.

Lemma keys_set k v d :
  Dict.keys (Dict.set k v d)
  = if Dict.mem k d then Dict.keys d else (Dict.keys d ++ [k])%list.
Proof.
  unfold Dict.mem. induction d as [|[k' v'] d IH]; simpl; auto.
  destruct (String.eqb k k') eqn:E; simpl; auto.
  rewrite IH. now destruct (Dict.get k d).
Qed.

Lemma wf_set k v d : Dict.wf d -> Dict.wf (Dict.set k v d).
Proof.
  unfold Dict.wf. rewrite keys_set. intros W.
  destruct (Dict.mem k d) eqn:E; auto.
  apply NoDup_app; auto.
  - constructor; [simpl; tauto | constructor].
  - intros x I [<-|[]]. apply mem_keys in I. congruence.
Qed.

Lemma wf_update d o : Dict.wf d -> Dict.wf (Dict.update d o).
Proof.
  unfold Dict.update. revert d.
  induction o as [|[k v] o IH]; simpl; auto using wf_set.
Qed.

Lemma get_app k d1 d2 :
  Dict.get k (d1 ++ d2)
  = match Dict.get k d1 with Some v => Some v | None => Dict.get k d2 end.
Proof.
  induction d1 as [|[k' v'] d1 IH]; simpl; auto.
  now destruct (String.eqb k k').
Qed.

(** After [d.update(o)] a key of [o] has the value [o] gives it, and any
    other key keeps the value it had in [d]. *)
Lemma get_update_rev k d o :
  Dict.get k (Dict.update d o)
  = match Dict.get k (rev o) with
    | Some v => Some v
    | None => Dict.get k d
    end.
Proof.
  unfold Dict.update. revert d.
  induction o as [|[k0 v0] o IH]; intros d; simpl; auto.
  rewrite IH, get_app. destruct (Dict.get k (rev o)); auto. simpl.
  destruct (String.eqb k k0) eqn:E.
  - apply String.eqb_eq in E; subst. apply get_set_same.
  - apply String.eqb_neq in E. apply get_set_other; congruence.
Qed.

Lemma get_rev_wf k o : Dict.wf o -> Dict.get k (rev o) = Dict.get k o.
Proof.
  unfold Dict.wf. induction o as [|[k0 v0] o IH]; simpl; auto.
  intros W. inversion W as [|? ? N W']; subst.
  rewrite get_app, IH by assumption. simpl.
  destruct (String.eqb k k0) eqn:E.
  - apply String.eqb_eq in E; subst.
    apply get_None_keys in N. now rewrite N.
  - now destruct (Dict.get k o).
Qed.

Lemma get_update k d o :
  Dict.wf o ->
  Dict.get k (Dict.update d o)
  = match Dict.get k o with
    | Some v => Some v
    | None => Dict.get k d
    end.
Proof. intros W. now rewrite get_update_rev, get_rev_wf. Qed.

End DictFacts.

(** ** Trimming *)

Lemma lstrip_spec s :
  exists pre,
    s = (pre ++ lstrip s)%string /\ all_space pre = true
    /\ starts_with_space (lstrip s) = false.
Proof.
  induction s as [|c s (pre & E & A & N)]; simpl.
  - now exists EmptyString.
  - destruct (is_space c) eqn:Sp.
    + exists (String c pre). simpl. rewrite Sp, A. now rewrite <- E.
    + exists EmptyString. simpl. auto.
Qed.

Lemma rstrip_spec s :
  exists post,
    s = (rstrip s ++ post)%string /\ all_space post = true
    /\ ends_with_space (rstrip s) = false
    /\ (starts_with_space s = false -> starts_with_space (rstrip s) = false).
Proof.
  induction s as [|c s (post & E & A & N & _)]; simpl.
  - now exists EmptyString.
  - destruct (rstrip s) as [|d t] eqn:R.
    + destruct (is_space c) eqn:Sp.
      * exists (String c post). simpl in *. rewrite Sp, A.
        repeat split; auto. now rewrite <- E.
      * exists post. simpl in *. rewrite Sp. repeat split; auto.
        now rewrite <- E.
    + exists post. simpl in *. repeat split; auto. now rewrite <- E.
Qed.

Lemma strip_spec s :
  exists pre post,
    s = (pre ++ strip s ++ post)%string
    /\ all_space pre = true /\ all_space post = true
    /\ starts_with_space (strip s) = false
    /\ ends_with_space (strip s) = false.
Proof.
  unfold strip.
  destruct (lstrip_spec s) as (pre & E1 & A1 & N1).
  destruct (rstrip_spec (lstrip s)) as (post & E2 & A2 & N2 & N3).
  exists pre, post. repeat split; auto. now rewrite <- E2.
Qed.

(** ** Case-insensitive comparison *)

Lemma upper_shift_code (c : ascii) :
  is_upper c = true -> code (ascii_of_N (code c + 32)) = (code c + 32)%N.
Proof.
  destruct c as [[] [] [] [] [] [] [] []]; vm_compute;
    intros H; try reflexivity; discriminate H.
Qed.

Lemma upper_shift_not_upper (c : ascii) :
  is_upper c = true -> is_upper (ascii_of_N (code c + 32)) = false.
Proof.
  destruct c as [[] [] [] [] [] [] [] []]; vm_compute;
    intros H; try reflexivity; discriminate H.
Qed.

Lemma code_inj (c1 c2 : ascii) : code c1 = code c2 -> c1 = c2.
Proof.
  unfold code. intros H.
  rewrite <- (ascii_N_embedding c1), <- (ascii_N_embedding c2).
  now rewrite H.
Qed.

Lemma lower_char_caseless (c1 c2 : ascii) :
  lower_char c1 = lower_char c2 <-> caseless_char c1 c2.
Proof.
  unfold lower_char. split.
  - destruct (is_upper c1) eqn:U1, (is_upper c2) eqn:U2; intros H.
    + apply (f_equal code) in H.
      rewrite !upper_shift_code in H by assumption.
      assert (c1 = c2) as -> by (apply code_inj; lia). constructor.
    + subst c2. now constructor.
    + subst c1. now constructor.
    + subst c2. constructor.
  - intros [c|c U|c U].
    + reflexivity.
    + now rewrite U, upper_shift_not_upper.
    + now rewrite U, upper_shift_not_upper.
Qed.

Lemma lower_caseless (s1 s2 : string) :
  lower s1 = lower s2 <-> caseless_eq s1 s2.
Proof.
  split.
  - revert s2. induction s1 as [|c1 s1 IH]; intros [|c2 s2]; simpl;
      try discriminate.
    + constructor.
    + intros [= Hc Hs]. constructor; [now apply lower_char_caseless | auto].
  - induction 1 as [|c1 c2 s1 s2 Hc _ IH]; simpl; auto.
    apply lower_char_caseless in Hc. now rewrite Hc, IH.
Qed.

Lemma group_selected_iff (groups : list string) (ch : channel) :
  group_selected groups ch = true
  <-> exists g, In g groups /\ caseless_eq (group_label ch) g.
Proof.
  unfold group_selected. rewrite existsb_exists. split.
  - intros (x & I & E). apply in_map_iff in I as (g & <- & I).
    apply String.eqb_eq in E. exists g. split; auto.
    now apply lower_caseless.
  - intros (g & I & C). exists (lower g). split.
    + now apply in_map.
    + apply String.eqb_eq. now apply lower_caseless.
Qed.

(** ** Channel filter: the region stage *)

Lemma merge_step_wf (data : catalog) (acc : dict channel) (r : string) :
  Dict.wf acc -> Dict.wf (merge_step data acc r).
Proof.
  unfold merge_step. destruct (Dict.get r (regions data)); auto using wf_update.
Qed.

Lemma merge_fold_wf (data : catalog) (selected : list string) :
  forall acc, Dict.wf acc -> Dict.wf (fold_left (merge_step data) selected acc).
Proof.
  induction selected as [|r sel IH]; simpl; auto using merge_step_wf.
Qed.

Lemma merge_regions_wf (data : catalog) (selected : list string) :
  Dict.wf (merge_regions data selected).
Proof. unfold merge_regions. apply merge_fold_wf. constructor. Qed.

Lemma merge_fold_skip_absent (data : catalog) (selected : list string) :
  forall acc,
    fold_left (merge_step data) selected acc
    = fold_left (merge_step data) (present_regions data selected) acc.
Proof.
  unfold present_regions.
  induction selected as [|r sel IH]; intros acc; simpl; auto.
  destruct (Dict.mem r (regions data)) eqn:M; simpl; auto.
  rewrite <- IH. f_equal. unfold merge_step.
  unfold Dict.mem in M. now destruct (Dict.get r (regions data)).
Qed.

Lemma merge_fold_drop_absent (data : catalog) (r0 : string) :
  Dict.mem r0 (regions data) = false ->
  forall selected acc,
    fold_left (merge_step data) selected acc
    = fold_left (merge_step data)
        (filter (fun r => negb (String.eqb r r0)) selected) acc.
Proof.
  intros M. induction selected as [|r sel IH]; intros acc; simpl; auto.
  destruct (String.eqb r r0) eqn:E; simpl; auto.
  apply String.eqb_eq in E; subst r. rewrite <- IH. f_equal.
  unfold merge_step. unfold Dict.mem in M.
  now destruct (Dict.get r0 (regions data)).
Qed.

Lemma merge_fold_keys (data : catalog) (l : dict region) :
  (forall k reg, In (k, reg) l -> Dict.get k (regions data) = Some reg) ->
  forall acc,
    fold_left (merge_step data) (Dict.keys l) acc
    = fold_left Dict.update (map (fun kv => region_channels (snd kv)) l) acc.
Proof.
  induction l as [|[k reg] l IH]; intros H acc; simpl; auto.
  rewrite <- IH by (intros; apply H; simpl; auto).
  f_equal. unfold merge_step. rewrite (H k reg); simpl; auto.
Qed.

Lemma fold_update_get (k : string) (maps : list (dict channel)) :
  Forall Dict.wf maps ->
  forall acc,
    Dict.get k (fold_left Dict.update maps acc)
    = match last_write maps k with
      | Some v => Some v
      | None => Dict.get k acc
      end.
Proof.
  induction 1 as [|m maps W _ IH]; intros acc; simpl; auto.
  rewrite IH. destruct (last_write maps k); auto.
  now apply get_update.
Qed.

Lemma last_write_keys (maps : list (dict channel)) (k : string) :
  last_write maps k <> None
  <-> exists m, In m maps /\ In k (Dict.keys m).
Proof.
  induction maps as [|m maps IH]; simpl.
  - split; [congruence | intros (m & [] & _)].
  - destruct (last_write maps k) as [v|].
    + split; [|congruence]. intros _.
      destruct IH as [IH _]. destruct IH as (m' & I & K); [congruence|].
      eauto.
    + split.
      * intros N. exists m. split; auto.
        destruct (in_dec string_dec k (Dict.keys m)) as [I|I]; auto.
        now apply get_None_keys in I.
      * intros (m' & [<-|I] & K).
        -- intros N. now apply get_None_keys in N.
        -- destruct IH as [_ IH]. exfalso. apply IH; eauto.
Qed.

Lemma select_regions_all (data : catalog) :
  select_regions data ["all"%string] = Dict.keys (regions data).
Proof. reflexivity. Qed.

Lemma select_regions_other (data : catalog) (selected : list string) :
  selected <> ["all"%string] -> select_regions data selected = selected.
Proof.
  unfold select_regions, list_string_eqb. intros N.
  now destruct (list_eq_dec string_dec selected ["all"%string]).
Qed.

(** C3.  With the region selector ["all"] the filter merges the channel
    mapping of every region of the catalog, in catalog iteration order:
    a channel identifier is bound to the channel of the last region that
    has it, and to nothing when no region has it.  A non-empty group
    selector is then applied to that union.  In the region loop a selected
    code that names no region of the catalog contributes nothing. *)
Theorem filter_all_is_union (data : catalog) :
  catalog_wf data ->
  let merged := filter_channels data ["all"%string] [] in
  Dict.wf merged
  /\ merged = fold_left Dict.update (catalog_maps data) []
  /\ (forall k, Dict.get k merged = last_write (catalog_maps data) k)
  /\ (forall k,
        In k (Dict.keys merged)
        <-> exists m, In m (catalog_maps data) /\ In k (Dict.keys m))
  /\ (forall groups,
        filter_channels data ["all"%string] groups
        = filter_groups groups merged)
  /\ (forall selected,
        merge_regions data selected
        = merge_regions data (present_regions data selected)).
Proof.
  intros [WR WM] merged.
  assert (E : merged = fold_left Dict.update (catalog_maps data) []).
  { subst merged. unfold filter_channels. simpl filter_groups.
    rewrite select_regions_all. unfold merge_regions.
    apply merge_fold_keys. intros k reg I. now apply In_get_wf. }
  assert (G : forall k, Dict.get k merged = last_write (catalog_maps data) k).
  { intros k. rewrite E, fold_update_get by assumption.
    now destruct (last_write (catalog_maps data) k). }
  split; [apply merge_regions_wf|]. split; [exact E|]. split; [exact G|].
  split; [|split].
  - intros k. rewrite <- last_write_keys, <- G.
    destruct (in_dec string_dec k (Dict.keys merged)) as [I|I].
    + split; auto. intros _ N. now apply get_None_keys in N.
    + pose proof (proj2 (get_None_keys _ _) I) as Gn. rewrite Gn.
      split; [tauto | congruence].
  - reflexivity.
  - intros selected. unfold merge_regions.
    apply merge_fold_skip_absent.
Qed.

(** C9.  The sentinel is recognised only for the selector that is exactly
    ["all"].  Any other selector, also one that lists "all" among other
    codes, is used as it is: no expansion takes place, and an "all" entry
    is looked up like any region code, so it contributes nothing when the
    catalog has no region of that name. *)
Theorem all_sentinel_exact (data : catalog) (selected groups : list string) :
  selected <> ["all"%string] ->
  select_regions data ["all"%string] = Dict.keys (regions data)
  /\ select_regions data selected = selected
  /\ filter_channels data selected groups
     = filter_groups groups (merge_regions data selected)
  /\ (Dict.mem "all" (regions data) = false ->
      merge_regions data selected
      = merge_regions data
          (filter (fun r => negb (String.eqb r "all")) selected)).
Proof.
  intros N. split; [reflexivity|]. split; [now apply select_regions_other|].
  split.
  - unfold filter_channels. now rewrite select_regions_other.
  - intros M. unfold merge_regions.
    now apply merge_fold_drop_absent.
Qed.

(** ** Channel filter: the group stage *)

Lemma set_fresh {V : Type} (k : string) (v : V) (d : dict V) :
  ~ In k (Dict.keys d) -> Dict.set k v d = d ++ [(k, v)].
Proof.
  induction d as [|[k' v'] d IH]; simpl; auto.
  intros N. destruct (String.eqb k k') eqn:E.
  - apply String.eqb_eq in E. subst. tauto.
  - rewrite IH; tauto.
Qed.

Lemma copy_retained_fold {V : Type} (p : V -> bool) (chans : dict V) :
  forall acc,
    NoDup (Dict.keys acc ++ Dict.keys chans) ->
    fold_left
      (fun filtered kv =>
         if p (snd kv) then Dict.set (fst kv) (snd kv) filtered else filtered)
      chans acc
    = acc ++ filter (fun kv => p (snd kv)) chans.
Proof.
  induction chans as [|[k v] chans IH]; intros acc W; simpl.
  - now rewrite app_nil_r.
  - pose proof (NoDup_remove _ _ _ W) as [W' N]. destruct (p v).
    + rewrite set_fresh by (intros I; apply N, in_or_app; auto).
      rewrite IH.
      * now rewrite <- app_assoc.
      * unfold Dict.keys in *. rewrite map_app, <- app_assoc. exact W.
    + now apply IH.
Qed.

Lemma filter_groups_nonempty (g0 : string) (gs : list string)
      (chans : dict channel) :
  Dict.wf chans ->
  filter_groups (g0 :: gs) chans
  = filter (fun kv => group_selected (g0 :: gs) (snd kv)) chans.
Proof.
  intros W. unfold filter_groups.
  now rewrite (copy_retained_fold (group_selected (g0 :: gs))).
Qed.

(** C4.  With a non-empty group selector the filter retains, in the order
    of the merged mapping, exactly the channels whose group label (the
    empty text when the channel has none) equals one of the selector labels
    up to letter case; with the empty selector it retains every merged
    channel. *)
Theorem group_filter_retains (data : catalog) (selected : list string) :
  let merged := merge_regions data (select_regions data selected) in
  filter_channels data selected [] = merged
  /\ forall g0 gs,
      let groups := g0 :: gs in
      filter_channels data selected groups
      = filter (fun kv => group_selected groups (snd kv)) merged
      /\ forall channel_id ch,
          In (channel_id, ch) (filter_channels data selected groups)
          <-> In (channel_id, ch) merged
              /\ exists g, In g groups /\ caseless_eq (group_label ch) g.
Proof.
  intros merged. split; [reflexivity|]. intros g0 gs groups.
  assert (E : filter_channels data selected groups
              = filter (fun kv => group_selected groups (snd kv)) merged).
  { apply filter_groups_nonempty, merge_regions_wf. }
  split; [exact E|]. intros channel_id ch.
  rewrite E, filter_In. simpl. now rewrite group_selected_iff.
Qed.

(** ** The stable sort *)

Section StableSortFacts.
Context {A K : Type}.
Variable leb : K -> K -> bool.
Variable key : A -> K.
Hypothesis leb_total : forall a b, leb a b = true \/ leb b a = true.
Hypothesis leb_trans :
  forall a b c, leb a b = true -> leb b c = true -> leb a c = true.

Lemma insert_by_perm (x : A) (l : list A) :
  Permutation (insert_by leb key x l) (x :: l).
Proof.
  induction l as [|y l IH]; simpl; auto.
  destruct (leb (key x) (key y)); auto.
  rewrite IH. apply perm_swap.
Qed.

Lemma sorted_perm (l : list A) : Permutation (sorted leb key l) l.
Proof.
  induction l as [|x l IH]; simpl; auto.
  rewrite insert_by_perm. now constructor.
Qed.

Lemma insert_by_sorted (x : A) (l : list A) :
  StronglySorted (by_key leb key) l ->
  StronglySorted (by_key leb key) (insert_by leb key x l).
Proof.
  induction 1 as [|y l S IH F]; simpl.
  - repeat constructor.
  - destruct (leb (key x) (key y)) eqn:E.
    + constructor; [now constructor|].
      constructor; [exact E|].
      eapply Forall_impl; [|exact F].
      intros z Hz. unfold by_key in *. eauto.
    + constructor; auto.
      assert (Hyx : by_key leb key y x).
      { unfold by_key. destruct (leb_total (key x) (key y)); congruence. }
      eapply Permutation_Forall.
      * symmetry. apply insert_by_perm.
      * now constructor.
Qed.

Lemma sorted_sorted (l : list A) :
  StronglySorted (by_key leb key) (sorted leb key l).
Proof.
  induction l as [|x l IH]; simpl; [constructor|].
  now apply insert_by_sorted.
Qed.

(** Stability: the items that tie on a key keep their input order. *)
Lemma insert_by_ties (k : K) (x : A) (l : list A) :
  filter (ties_with leb key k) (insert_by leb key x l)
  = filter (ties_with leb key k) (x :: l).
Proof.
  induction l as [|y l IH]; auto.
  simpl insert_by. destruct (leb (key x) (key y)) eqn:E; auto.
  simpl in *. rewrite IH.
  destruct (ties_with leb key k x) eqn:Tx; auto.
  destruct (ties_with leb key k y) eqn:Ty; auto.
  exfalso. unfold ties_with in *.
  apply andb_prop in Tx as [Tx _]. apply andb_prop in Ty as [_ Ty].
  rewrite (leb_trans _ _ _ Tx Ty) in E. discriminate.
Qed.

Lemma sorted_stable (k : K) (l : list A) :
  filter (ties_with leb key k) (sorted leb key l)
  = filter (ties_with leb key k) l.
Proof.
  induction l as [|x l IH]; auto.
  simpl sorted. rewrite insert_by_ties. simpl. now rewrite IH.
Qed.

End StableSortFacts.

Lemma string_leb_trans (a : string) :
  forall b c,
    String.leb a b = true -> String.leb b c = true -> String.leb a c = true.
Proof.
  unfold String.leb.
  induction a as [|x a IH]; intros [|y b] [|z c]; simpl; try easy.
  change (Ascii.compare x y) with (N.compare (N_of_ascii x) (N_of_ascii y)).
  change (Ascii.compare y z) with (N.compare (N_of_ascii y) (N_of_ascii z)).
  change (Ascii.compare x z) with (N.compare (N_of_ascii x) (N_of_ascii z)).
  destruct (N.compare_spec (N_of_ascii x) (N_of_ascii y));
    destruct (N.compare_spec (N_of_ascii y) (N_of_ascii z));
    destruct (N.compare_spec (N_of_ascii x) (N_of_ascii z));
    try easy; try lia.
  apply IH.
Qed.

Lemma Z_leb_total (a b : Z) : (a <=? b) = true \/ (b <=? a) = true.
Proof. rewrite !Z.leb_le. lia. Qed.

Lemma Z_leb_trans (a b c : Z) :
  (a <=? b) = true -> (b <=? c) = true -> (a <=? c) = true.
Proof. rewrite !Z.leb_le. lia. Qed.

Lemma StronglySorted_filter {A : Type} (R : A -> A -> Prop) (p : A -> bool)
      (l : list A) :
  StronglySorted R l -> StronglySorted R (filter p l).
Proof.
  induction 1 as [|x l S IH F]; simpl; [constructor|].
  destruct (p x); auto. constructor; auto.
  rewrite Forall_forall in *. intros y Hy.
  apply F. now apply filter_In in Hy.
Qed.

Lemma StronglySorted_nth {A : Type} (R : A -> A -> Prop) (l : list A) :
  StronglySorted R l ->
  forall i j a b,
    (i < j)%nat -> nth_error l i = Some a -> nth_error l j = Some b -> R a b.
Proof.
  induction 1 as [|x l S IH F]; intros i j a b L Hi Hj.
  - destruct i; discriminate.
  - destruct j as [|j]; [lia|]. simpl in Hj. destruct i as [|i].
    + injection Hi as <-. rewrite Forall_forall in F.
      eapply F, nth_error_In; eauto.
    + simpl in Hi. apply (IH i j a b); auto. lia.
Qed.

(** ** Playlist formatter: the loop *)

Section FormatterFacts.
Variable format_id : string -> string -> result string.
Variable cfg : config.
Variable data : catalog.

Lemma truthy_int_native (o : option Z) :
  truthy_int o = true -> exists n, o = Some n /\ n <> 0.
Proof.
  destruct o as [n|]; simpl; [|discriminate].
  intros H. exists n. split; auto. intros ->. discriminate.
Qed.

(** What one round of the loop yields for a channel that is not
    skipped. *)
Lemma format_channel_inv channel_id ch n e n' :
  format_channel format_id cfg data channel_id ch n = Ok (e, n') ->
  tvg_id e = channel_id
  /\ tvg_logo e = logo ch
  /\ group ch = Some (group_title e)
  /\ tvg_name e
     = (if truthy_str (license_url ch)
        then (name ch ++ " [DRM]")%string else name ch)
  /\ drm_license_url e
     = (if truthy_str (license_url ch) then license_url ch else None)
  /\ (exists s, format_id (slug data) channel_id = Ok s
                /\ url e = ("https://jmp2.uk/" ++ s)%string)
  /\ (keeps_native cfg ch = true ->
      chno ch = Some (tvg_chno e) /\ tvg_chno e <> 0 /\ n' = n)
  /\ (keeps_native cfg ch = false -> tvg_chno e = n /\ n' = n + 1).
Proof.
  unfold format_channel. destruct (group ch) as [g|]; [|discriminate].
  destruct (format_id (slug data) channel_id) as [s|]; [|discriminate].
  simpl. destruct (keeps_native cfg ch) eqn:Kn; intros [= <- <-]; simpl;
    repeat split; eauto; try discriminate.
  all: unfold keeps_native in Kn; apply andb_prop in Kn as [T _];
    apply truthy_int_native in T as (m & -> & Hm); auto.
Qed.


Lemma sequential_count_cons kv l :
  sequential_count cfg (kv :: l)
  = (if keeps_native cfg (snd kv) then 0 else 1) + sequential_count cfg l.
Proof.
  unfold sequential_count. simpl filter.
  destruct (keeps_native cfg (snd kv)); simpl negb; cbv iota;
    [lia | rewrite length_cons; lia].
Qed.

Lemma loop_cons_inv channel_id ch rest n es :
  playlist_loop format_id cfg data ((channel_id, ch) :: rest) n = Ok es ->
  if skipped cfg ch
  then playlist_loop format_id cfg data rest n = Ok es
  else exists e n' es',
      format_channel format_id cfg data channel_id ch n = Ok (e, n')
      /\ playlist_loop format_id cfg data rest n' = Ok es'
      /\ es = e :: es'.
Proof.
  simpl. destruct (skipped cfg ch); auto.
  destruct (format_channel format_id cfg data channel_id ch n)
    as [[e n']|]; simpl; [|discriminate].
  destruct (playlist_loop format_id cfg data rest n') as [es'|] eqn:L;
    simpl; [|discriminate].
  intros [= <-]. eauto 6.
Qed.

(** The entries are those of the emitted channels, in order; the entry at
    position [i] is formatted with the counter advanced once for each
    earlier entry that was numbered from it. *)
Lemma loop_nth l :
  forall n es,
    playlist_loop format_id cfg data l n = Ok es ->
    List.length es = List.length (emitted cfg l)
    /\ forall i kv e,
        nth_error (emitted cfg l) i = Some kv ->
        nth_error es i = Some e ->
        format_channel format_id cfg data (fst kv) (snd kv)
          (n + sequential_count cfg (firstn i (emitted cfg l)))
        = Ok (e, n + sequential_count cfg (firstn (S i) (emitted cfg l))).
Proof.
  induction l as [|[channel_id ch] l IH]; intros n es H.
  - injection H as <-. split; auto. intros [|i] kv e; discriminate.
  - apply loop_cons_inv in H. unfold emitted in *. simpl filter.
    destruct (skipped cfg ch) eqn:Sk; simpl negb; cbv iota.
    + now apply IH.
    + destruct H as (e0 & n0 & es' & F & L & ->).
      apply IH in L as [Len Nth]. split; [simpl; now rewrite Len|].
      pose proof (format_channel_inv _ _ _ _ _ F)
        as (_ & _ & _ & _ & _ & _ & Kt & Kf).
      assert (Step : n0 = n + (if keeps_native cfg ch then 0 else 1)).
      { destruct (keeps_native cfg ch);
          [destruct Kt as (_ & _ & ->) | destruct Kf as (_ & ->)];
          auto; lia. }
      clear Kt Kf.
      intros [|i] kv e Hkv He; simpl in Hkv, He.
      * injection Hkv as <-. injection He as <-.
        simpl firstn. rewrite sequential_count_cons.
        change (sequential_count cfg []) with 0.
        simpl fst; simpl snd.
        rewrite !Z.add_0_r, <- Step. exact F.
      * specialize (Nth i kv e Hkv He).
        simpl firstn. rewrite !sequential_count_cons. simpl snd.
        rewrite !Z.add_assoc, <- Step. exact Nth.
Qed.

Lemma loop_Forall2 l :
  forall n es,
    playlist_loop format_id cfg data l n = Ok es ->
    Forall2
      (fun kv e =>
         exists m m',
           format_channel format_id cfg data (fst kv) (snd kv) m
           = Ok (e, m'))
      (emitted cfg l) es.
Proof.
  induction l as [|[channel_id ch] l IH]; intros n es H.
  - injection H as <-. constructor.
  - apply loop_cons_inv in H. unfold emitted in *. simpl filter.
    destruct (skipped cfg ch) eqn:Sk; simpl negb; cbv iota.
    + eapply IH; eauto.
    + destruct H as (e0 & n0 & es' & F & L & ->).
      constructor; eauto.
Qed.


End FormatterFacts.

(** ** Playlist formatter: order and numbering *)

Section FormatterOrder.
Variable format_id : string -> string -> result string.
Variable cfg : config.
Variable data : catalog.

Lemma sort_channels_perm chans : Permutation (sort_channels cfg chans) chans.
Proof.
  unfold sort_channels.
  destruct (String.eqb (SORT_BY cfg) "name"); apply sorted_perm.
Qed.

Lemma sort_channels_by_name chans :
  SORT_BY cfg = "name"%string ->
  sort_channels cfg chans = sorted String.leb name_key chans.
Proof. unfold sort_channels. now intros ->. Qed.

Lemma sort_channels_by_chno chans :
  SORT_BY cfg <> "name"%string ->
  sort_channels cfg chans = sorted Z.leb chno_key chans.
Proof.
  unfold sort_channels. intros N.
  destruct (String.eqb (SORT_BY cfg) "name") eqn:E; auto.
  now apply String.eqb_eq in E.
Qed.

Lemma emitted_In chans kv :
  In kv (emitted cfg (sort_channels cfg chans))
  <-> In kv chans /\ skipped cfg (snd kv) = false.
Proof.
  unfold emitted. rewrite filter_In, negb_true_iff.
  split; intros [I S]; split; auto.
  - eapply Permutation_in; [apply sort_channels_perm | exact I].
  - eapply Permutation_in; [symmetry; apply sort_channels_perm | exact I].
Qed.

Lemma entries_ids chans es :
  playlist_entries format_id cfg data chans = Ok es ->
  map tvg_id es = map fst (emitted cfg (sort_channels cfg chans)).
Proof.
  unfold playlist_entries. intros H. apply loop_Forall2 in H.
  induction H as [|kv e out es' (m & m' & F) _ IH]; simpl; auto.
  apply format_channel_inv in F as (-> & _). now rewrite IH.
Qed.

Lemma sequential_count_all l :
  START_CHNO cfg <> 1 ->
  sequential_count cfg l = Z.of_nat (List.length l).
Proof.
  intros N. unfold sequential_count. f_equal. f_equal.
  apply forallb_filter_id, forallb_forall. intros kv _.
  unfold keeps_native. apply Z.eqb_neq in N. rewrite N.
  now rewrite andb_false_r.
Qed.

End FormatterOrder.

(** C1 (as amended).  The emitted entries are those of the channels that
    are not skipped, in sort order.  With a start number of 1 a channel
    whose own number is not 0 keeps it as tvg-chno.  Every other entry (the
    start is not 1, or the channel has no number, or its number is 0) takes
    the running number: the start number plus the count of earlier emitted
    entries that were themselves numbered that way, whatever their own
    numbers.  With a start other than 1 this is the start number plus the
    position of the entry. *)
Theorem channel_numbering
        (format_id : string -> string -> result string)
        (cfg : config) (data : catalog) (chans : dict channel)
        (es : list entry) :
  playlist_entries format_id cfg data chans = Ok es ->
  let out := emitted cfg (sort_channels cfg chans) in
  List.length es = List.length out
  /\ forall i channel_id ch e,
      nth_error out i = Some (channel_id, ch) ->
      nth_error es i = Some e ->
      tvg_id e = channel_id
      /\ (START_CHNO cfg = 1 ->
          forall n, chno ch = Some n -> n <> 0 -> tvg_chno e = n)
      /\ (START_CHNO cfg <> 1 \/ chno ch = None \/ chno ch = Some 0 ->
          tvg_chno e
          = START_CHNO cfg + sequential_count cfg (firstn i out))
      /\ (START_CHNO cfg <> 1 -> tvg_chno e = START_CHNO cfg + Z.of_nat i).
Proof.
  intros H out. unfold playlist_entries in H.
  apply loop_nth in H as [Len Nth]. split; [exact Len|].
  intros i channel_id ch e Hout He.
  specialize (Nth i (channel_id, ch) e Hout He).
  apply format_channel_inv in Nth as (Hid & _ & _ & _ & _ & _ & Kt & Kf).
  simpl in *. fold out in Kf.
  assert (Seq : START_CHNO cfg <> 1 \/ chno ch = None \/ chno ch = Some 0 ->
                keeps_native cfg ch = false).
  { unfold keeps_native. intros [N|[-> | ->]]; auto.
    apply Z.eqb_neq in N. rewrite N. apply andb_false_r. }
  repeat split.
  - exact Hid.
  - intros S1 n Hn Hz. destruct Kt as (K & _).
    + unfold keeps_native. rewrite Hn, S1. simpl.
      apply Z.eqb_neq in Hz. now rewrite Hz.
    + congruence.
  - intros C. now apply Kf, Seq.
  - intros N. destruct Kf as (-> & _); [apply Seq; auto|].
    rewrite sequential_count_all, length_firstn by assumption.
    assert (i < List.length out)%nat
      by (apply nth_error_Some; congruence).
    f_equal. lia.
Qed.


Lemma filter_swap {A : Type} (p q : A -> bool) (l : list A) :
  filter p (filter q l) = filter q (filter p l).
Proof.
  induction l as [|x l IH]; simpl; auto.
  destruct (p x) eqn:P, (q x) eqn:Q; simpl; rewrite ?P, ?Q, IH; auto.
Qed.

(** C5 (as amended).  When the sort key is not "name" (so for "chno") the
    entries follow the channels in ascending order of their number, a
    missing number counting as 999999, and channels with equal keys stay in
    dictionary order.  Hence a channel without number comes after every
    channel whose number is below 999999. *)
Theorem chno_order
        (format_id : string -> string -> result string)
        (cfg : config) (data : catalog) (chans : dict channel)
        (es : list entry) :
  SORT_BY cfg <> "name"%string ->
  playlist_entries format_id cfg data chans = Ok es ->
  let out := emitted cfg (sort_channels cfg chans) in
  map tvg_id es = map fst out
  /\ (forall kv, In kv out <-> In kv chans /\ skipped cfg (snd kv) = false)
  /\ StronglySorted (by_key Z.leb chno_key) out
  /\ (forall k, filter (ties_with Z.leb chno_key k) out
                = filter (ties_with Z.leb chno_key k) (emitted cfg chans))
  /\ (forall i j a b n,
         nth_error out i = Some a -> nth_error out j = Some b ->
         chno (snd a) = None -> chno (snd b) = Some n -> n < 999999 ->
         (j < i)%nat).
Proof.
  intros N H out.
  assert (S : StronglySorted (by_key Z.leb chno_key) out).
  { subst out. unfold emitted. apply StronglySorted_filter.
    rewrite sort_channels_by_chno by assumption.
    apply sorted_sorted; [apply Z_leb_total | apply Z_leb_trans]. }
  split; [exact (entries_ids _ _ _ _ _ H)|]. split; [apply emitted_In|].
  split; [exact S|]. split.
  - intros k. subst out. unfold emitted.
    rewrite sort_channels_by_chno by assumption.
    rewrite filter_swap, sorted_stable by apply Z_leb_trans.
    apply filter_swap.
  - intros i j a b n Ha Hb Ca Cb Hn.
    destruct (Nat.lt_trichotomy j i) as [L|[E|G]]; auto; exfalso.
    + subst j. congruence.
    + pose proof (StronglySorted_nth _ _ S i j a b G Ha Hb) as R.
      unfold by_key, chno_key in R. rewrite Ca, Cb in R.
      apply Z.leb_le in R. lia.
Qed.

(** C6.  When the sort key is "name" the entries follow the emitted
    channels in an order in which the trimmed, lower-cased display names
    never decrease; each entry shows the name of its channel, with the
    marker appended for a DRM channel. *)
Theorem name_order
        (format_id : string -> string -> result string)
        (cfg : config) (data : catalog) (chans : dict channel)
        (es : list entry) :
  SORT_BY cfg = "name"%string ->
  playlist_entries format_id cfg data chans = Ok es ->
  let out := emitted cfg (sort_channels cfg chans) in
  Forall2
    (fun kv e =>
       tvg_id e = fst kv
       /\ (tvg_name e = name (snd kv)
           \/ tvg_name e = (name (snd kv) ++ " [DRM]")%string))
    out es
  /\ (forall kv, In kv out <-> In kv chans /\ skipped cfg (snd kv) = false)
  /\ StronglySorted
       (fun a b =>
          String.leb (lower (strip (name (snd a))))
                     (lower (strip (name (snd b)))) = true)
       out.
Proof.
  intros N H out. split; [|split; [apply emitted_In|]].
  - unfold playlist_entries in H. apply loop_Forall2 in H. fold out in H.
    eapply Forall2_impl; [|exact H].
    intros kv e (m & m' & F).
    apply format_channel_inv in F as (Hid & _ & _ & Hn & _).
    split; auto. destruct (truthy_str (license_url (snd kv))); auto.
  - subst out. unfold emitted. apply StronglySorted_filter.
    rewrite sort_channels_by_name by assumption.
    apply (sorted_sorted String.leb name_key);
      [apply String.leb_total | apply string_leb_trans].
Qed.

(** ** Occurrences of a text in a playlist *)

Lemma prefix_app_sep c p :
  mentions c p = false ->
  forall a b, String.prefix p (a ++ String c b)%string = String.prefix p a.
Proof.
  induction p as [|x p IH]; intros M a b; [now destruct a|].
  simpl in M. apply orb_false_iff in M as [Mx Mp].
  destruct a as [|y a]; simpl.
  - destruct (ascii_dec x c) as [->|N]; auto.
    now rewrite Ascii.eqb_refl in Mx.
  - destruct (ascii_dec x y); auto.
Qed.

Lemma contains_unfold p s :
  contains p s
  = String.prefix p s
    || match s with
       | EmptyString => false
       | String _ s' => contains p s'
       end.
Proof. now destruct s. Qed.

(** A text without the character [c] occurs in [a ++ c ++ b] only inside
    [a] or inside [b]. *)
Lemma contains_app_sep c p :
  mentions c p = false ->
  forall a b,
    contains p (a ++ String c b)%string = contains p a || contains p b.
Proof.
  intros M a b. induction a as [|y a IH].
  - cbn [String.append]. rewrite (contains_unfold p (String c b)).
    change (String c b) with (EmptyString ++ String c b)%string at 1.
    rewrite prefix_app_sep by assumption.
    rewrite (contains_unfold p EmptyString).
    now destruct (String.prefix p EmptyString), (contains p b).
  - cbn [String.append]. rewrite (contains_unfold p (String y _)).
    change (String y (a ++ String c b))
      with (String y a ++ String c b)%string at 1.
    rewrite prefix_app_sep, IH by assumption.
    rewrite (contains_unfold p (String y a)).
    now rewrite orb_assoc.
Qed.

Lemma contains_outside alphabet p s :
  starts_outside alphabet p = true -> all_in alphabet s = true ->
  contains p s = false.
Proof.
  destruct p as [|x p]; [discriminate|]. simpl. intros O.
  induction s as [|c s IH]; simpl; auto.
  intros A. apply andb_prop in A as [Ac As]. rewrite IH by assumption.
  destruct (ascii_dec x c) as [->|]; auto. rewrite Ac in O. discriminate.
Qed.

Lemma str_of_int_digits n : all_in "-0123456789" (str_of_int n) = true.
Proof.
  assert (D : forall u, all_in "-0123456789" (NilEmpty.string_of_uint u) = true)
    by (induction u; simpl; auto).
  unfold str_of_int, NilZero.string_of_int, NilZero.string_of_uint.
  destruct (Z.to_int n) as [u|u]; destruct u; simpl; try reflexivity; apply D.
Qed.

Lemma contains_join p ls :
  mentions (ascii_of_nat 10) p = false ->
  ls <> [] ->
  contains p (join nl ls) = existsb (contains p) ls.
Proof.
  intros M. unfold join. induction ls as [|x ls IH]; [congruence|].
  intros _. destruct ls as [|y ls].
  - simpl. now rewrite orb_false_r.
  - change (String.concat nl (x :: y :: ls))
      with (x ++ String (ascii_of_nat 10) (String.concat nl (y :: ls)))%string.
    rewrite contains_app_sep by assumption.
    rewrite IH by discriminate. reflexivity.
Qed.

Lemma plain_line_free p e :
  foreign_to_syntax p = true ->
  contains p (tvg_id e) = false -> contains p (tvg_name e) = false ->
  contains p (tvg_logo e) = false -> contains p (group_title e) = false ->
  contains p (plain_extinf_line e) = false.
Proof.
  unfold foreign_to_syntax. rewrite !andb_true_iff, !negb_true_iff.
  intros (((((((((Q & _) & C) & D) & _) & L1) & L2) & L3) & L4) & L5).
  intros Hid Hname Hlogo Hgroup.
  assert (Edq : forall x, (dq ++ x)%string = String (ascii_of_nat 34) x)
    by reflexivity.
  assert (Ecomma : forall x,
             ("," ++ x)%string = (EmptyString ++ String "," x)%string)
    by reflexivity.
  unfold plain_extinf_line. rewrite !Edq, Ecomma.
  rewrite !(contains_app_sep _ p Q), (contains_app_sep _ p C).
  rewrite (contains_outside _ _ _ D (str_of_int_digits _)).
  rewrite L1, L2, L3, L4, L5, Hid, Hname, Hlogo, Hgroup.
  destruct p; [discriminate|reflexivity].
Qed.

Lemma plain_lines_free p format_id data out es :
  foreign_to_syntax p = true ->
  Forall2 (plain_entry_of format_id data) out es ->
  Forall (channel_free_of p format_id data) out ->
  existsb (contains p)
          (flat_map (fun e => [plain_extinf_line e; url e]) es) = false.
Proof.
  intros N F2. induction F2 as [|kv e out es P _ IH]; auto.
  intros Fr. inversion Fr as [|? ? (Fid & Fname & Flogo & Fgroup & Furl) Fr'];
    subst.
  destruct P as (Hid & Hname & Hlogo & Hgroup & _ & (s & Hs & Hurl) & _).
  cbn [flat_map app existsb].
  rewrite IH by assumption.
  rewrite plain_line_free; try congruence.
  - rewrite Hurl, (Furl s Hs). reflexivity.
  - unfold group_label in Fgroup. now rewrite Hgroup in Fgroup.
Qed.

(** C2 (as amended).  With the DRM flag off, the emitted channels are
    exactly the channels without a (non-empty) licence URL: a channel that
    has one gets no entry at all.  Every entry then shows the fields of its
    channel unchanged, the name with no marker appended, and its metadata
    line has no DRM attributes; the playlist is the header followed by
    those plain lines and the URLs.  Hence the playlist text shows the
    marker or the licence attribute only where a value copied from an
    emitted channel (identifier, name, logo, group, URL) already shows
    it. *)
Theorem drm_channels_skipped
        (format_id : string -> string -> result string)
        (cfg : config) (data : catalog) (chans : dict channel)
        (es : list entry) :
  INCLUDE_DRM cfg = false ->
  Dict.wf chans ->
  playlist_entries format_id cfg data chans = Ok es ->
  let out := emitted cfg (sort_channels cfg chans) in
  let text :=
    join nl ("#EXTM3U"%string
             :: flat_map (fun e => [plain_extinf_line e; url e]) es) in
  (forall kv,
      In kv out
      <-> In kv chans /\ truthy_str (license_url (snd kv)) = false)
  /\ (forall channel_id ch,
         In (channel_id, ch) chans ->
         truthy_str (license_url ch) = true ->
         ~ In channel_id (map tvg_id es))
  /\ Forall2 (plain_entry_of format_id data) out es
  /\ generate_m3u_playlist format_id cfg data chans = Ok text
  /\ (forall p,
         foreign_to_syntax p = true ->
         Forall (channel_free_of p format_id data) out ->
         contains p text = false)
  /\ (Forall (fun kv =>
                channel_free_of "[DRM]" format_id data kv
                /\ channel_free_of "license-url=" format_id data kv) out ->
      drm_free_text text).
Proof.
  intros D W H out text.
  assert (Sk : forall ch, skipped cfg ch = truthy_str (license_url ch)).
  { intros ch. unfold skipped. rewrite D. apply andb_true_r. }
  assert (In_out : forall kv,
             In kv out
             <-> In kv chans /\ truthy_str (license_url (snd kv)) = false).
  { intros kv. subst out. rewrite emitted_In. now rewrite Sk. }
  assert (F2 : Forall2 (plain_entry_of format_id data) out es).
  { pose proof H as L. unfold playlist_entries in L.
    apply loop_Forall2 in L. fold out in L.
    assert (Fo : Forall (fun kv => truthy_str (license_url (snd kv)) = false)
                        out).
    { apply Forall_forall. intros kv I. now apply In_out in I. }
    clear In_out H text. induction L as [|kv e out' es' (m & m' & F) _ IH];
      constructor.
    - inversion Fo as [|? ? T _]; subst.
      apply format_channel_inv in F
        as (Hid & Hlogo & Hgroup & Hn & Hl & Hurl & _).
      rewrite T in Hn, Hl. unfold plain_entry_of. repeat split; auto.
      unfold extinf_line, plain_extinf_line. now rewrite Hl.
    - inversion Fo; subst. auto. }
  assert (Free : forall p,
             foreign_to_syntax p = true ->
             Forall (channel_free_of p format_id data) out ->
             contains p text = false).
  { intros p N Fr. subst text.
    assert (M : mentions (ascii_of_nat 10) p = false
                /\ contains p "#EXTM3U" = false).
    { unfold foreign_to_syntax in N.
      rewrite !andb_true_iff, !negb_true_iff in N. tauto. }
    destruct M as [M Hd].
    rewrite contains_join by (assumption || discriminate).
    cbn [existsb]. rewrite Hd. cbn [orb].
    eapply plain_lines_free; eassumption. }
  split; [exact In_out|]. split; [|split; [exact F2|split; [|split]]].
  - intros channel_id ch I T Hin.
    rewrite (entries_ids _ _ _ _ _ H) in Hin. fold out in Hin.
    apply in_map_iff in Hin as ([k ch'] & E & I').
    simpl in E; subst k. apply In_out in I' as [I' T']. simpl in T'.
    apply (In_get_wf _ _ _ W) in I. apply (In_get_wf _ _ _ W) in I'.
    congruence.
  - unfold generate_m3u_playlist. rewrite H. simpl rbind.
    assert (E : flat_map entry_lines es
                = flat_map (fun e => [plain_extinf_line e; url e]) es).
    { clear H In_out Free text.
      induction F2 as [|kv e out' es' (_ & _ & _ & _ & _ & _ & E) _ IH];
        auto.
      cbn [flat_map]. unfold entry_lines at 1. now rewrite E, IH. }
    now rewrite E.
  - exact Free.
  - intros Fr. split; apply Free; try reflexivity.
    + eapply Forall_impl; [|exact Fr]. now intros kv [A _].
    + eapply Forall_impl; [|exact Fr]. now intros kv [_ A].
Qed.

(** ** The properties on the example data *)

(** The two scenarios of the specification.  With the DRM flag off the
    playlist has the single entry of channel "1"; with the flag on and the
    sort by name it has the entries of "1" and "2" in that order, the second
    with the marker in its name and with its licence URL. *)
Example scenario_without_drm :
  map tvg_id
      (Examples.entries_of Examples.no_drm Examples.scenario
         (filter_channels Examples.scenario ["all"%string] []))
  = ["1"%string].
Proof. reflexivity. Qed.

Example scenario_with_drm_by_name :
  map (fun e => (tvg_id e, tvg_name e, drm_license_url e))
      (Examples.entries_of Examples.by_name Examples.scenario
         (filter_channels Examples.scenario ["all"%string] []))
  = [("1", "A", None); ("2", "B [DRM]", Some "http://x")]%string.
Proof. reflexivity. Qed.

(** C1, counterexample to the claim as stated.  With the start number 1,
    the channel "z" has the number 0 and yet its entry is numbered 1; the
    channel "n" without a number is the third entry and is numbered 2,
    because the entry of "f" kept its own number and did not advance the
    counter. *)
Lemma zero_number_not_kept :
  START_CHNO Examples.defaults = 1
  /\ exists es,
      playlist_entries format_id_simple Examples.defaults Examples.scenario
        Examples.mixed_numbers = Ok es
      /\ map tvg_id es = ["z"; "f"; "n"]%string
      /\ map tvg_chno es = [1; 5; 2]
      /\ ~ native_number_kept Examples.defaults
           (emitted Examples.defaults
              (sort_channels Examples.defaults Examples.mixed_numbers))
           es.
Proof.
  split; [reflexivity|]. eexists. split; [reflexivity|].
  split; [reflexivity|]. split; [reflexivity|].
  intros K.
  specialize (K eq_refl 0%nat ("z"%string, Examples.numbered 0 "Zero") _ 0
                eq_refl eq_refl eq_refl).
  discriminate K.
Qed.

(** The numbering theorem on a run that starts at 5. *)
Lemma channel_numbering_witness :
  playlist_entries format_id_simple Examples.from_5 Examples.scenario
    Examples.mixed_numbers
  = Ok (Examples.entries_of Examples.from_5 Examples.scenario
          Examples.mixed_numbers)
  /\ List.length
       (Examples.entries_of Examples.from_5 Examples.scenario
          Examples.mixed_numbers)
     = List.length
         (emitted Examples.from_5
            (sort_channels Examples.from_5 Examples.mixed_numbers)).
Proof.
  split; [reflexivity|].
  apply (channel_numbering format_id_simple Examples.from_5 Examples.scenario
           Examples.mixed_numbers).
  reflexivity.
Defined.

(** C2, counterexample to the claim as stated.  With the DRM flag off, a
    channel that has no licence URL and is itself named "Quiz [DRM]" is
    emitted, so the playlist text shows the marker. *)
Lemma marker_from_native_name :
  INCLUDE_DRM Examples.no_drm = false
  /\ exists text,
      generate_m3u_playlist format_id_simple Examples.no_drm Examples.scenario
        Examples.marker_in_name = Ok text
      /\ count "[DRM]" text = 2%nat
      /\ ~ drm_free_text text.
Proof.
  split; [reflexivity|]. eexists. split; [reflexivity|].
  split; [reflexivity|].
  intros [M _]. vm_compute in M. discriminate M.
Qed.

(** The first scenario of the specification: with the DRM flag off the
    channel "2", which has a licence URL, gets no entry. *)
Lemma drm_channels_skipped_witness :
  INCLUDE_DRM Examples.no_drm = false
  /\ Dict.wf (filter_channels Examples.scenario ["all"%string] [])
  /\ playlist_entries format_id_simple Examples.no_drm Examples.scenario
       (filter_channels Examples.scenario ["all"%string] [])
     = Ok (Examples.entries_of Examples.no_drm Examples.scenario
             (filter_channels Examples.scenario ["all"%string] []))
  /\ ~ In "2"%string
       (map tvg_id
          (Examples.entries_of Examples.no_drm Examples.scenario
             (filter_channels Examples.scenario ["all"%string] []))).
Proof.
  assert (W : Dict.wf (filter_channels Examples.scenario ["all"%string] []))
    by apply merge_regions_wf.
  split; [reflexivity|]. split; [exact W|]. split; [reflexivity|].
  destruct (drm_channels_skipped format_id_simple Examples.no_drm
              Examples.scenario
              (filter_channels Examples.scenario ["all"%string] [])
              (Examples.entries_of Examples.no_drm Examples.scenario
                 (filter_channels Examples.scenario ["all"%string] []))
              eq_refl W eq_refl) as (_ & T & _).
  apply (T "2"%string Examples.channel_b); [simpl; auto | reflexivity].
Defined.

(** C5, counterexample to the claim as stated.  Sorted by number, the
    channel "a" without a number comes before the channel "b" numbered
    1000000. *)
Lemma unnumbered_before_big_number :
  SORT_BY Examples.defaults = "chno"%string
  /\ exists es,
      playlist_entries format_id_simple Examples.defaults Examples.scenario
        Examples.beyond_sentinel = Ok es
      /\ map tvg_id es = ["a"; "b"]%string
      /\ ~ unnumbered_last
           (emitted Examples.defaults
              (sort_channels Examples.defaults Examples.beyond_sentinel)).
Proof.
  split; [reflexivity|]. eexists. split; [reflexivity|].
  split; [reflexivity|].
  intros U.
  assert (L : (1 < 0)%nat).
  { apply (U 0%nat 1%nat ("a"%string, Examples.channel_a)
             ("b"%string, Examples.numbered 1000000 "Big"));
      try reflexivity. discriminate. }
  lia.
Qed.

(** The order theorem on the channels numbered 0, 5 and unnumbered. *)
Lemma chno_order_witness :
  SORT_BY Examples.defaults <> "name"%string
  /\ playlist_entries format_id_simple Examples.defaults Examples.scenario
       Examples.mixed_numbers
     = Ok (Examples.entries_of Examples.defaults Examples.scenario
             Examples.mixed_numbers)
  /\ map tvg_id
       (Examples.entries_of Examples.defaults Examples.scenario
          Examples.mixed_numbers)
     = map fst
         (emitted Examples.defaults
            (sort_channels Examples.defaults Examples.mixed_numbers)).
Proof.
  split; [discriminate|]. split; [reflexivity|].
  apply (chno_order format_id_simple Examples.defaults Examples.scenario
           Examples.mixed_numbers).
  - discriminate.
  - reflexivity.
Defined.

(** The same channels sorted by name. *)
Lemma name_order_witness :
  SORT_BY Examples.by_name = "name"%string
  /\ playlist_entries format_id_simple Examples.by_name Examples.scenario
       Examples.mixed_numbers
     = Ok (Examples.entries_of Examples.by_name Examples.scenario
             Examples.mixed_numbers)
  /\ StronglySorted
       (fun a b =>
          String.leb (lower (strip (name (snd a))))
                     (lower (strip (name (snd b)))) = true)
       (emitted Examples.by_name
          (sort_channels Examples.by_name Examples.mixed_numbers)).
Proof.
  split; [reflexivity|]. split; [reflexivity|].
  apply (name_order format_id_simple Examples.by_name Examples.scenario
           Examples.mixed_numbers
           (Examples.entries_of Examples.by_name Examples.scenario
              Examples.mixed_numbers));
    reflexivity.
Defined.


(** The scenario catalog is well formed and its two regions are merged. *)
Lemma filter_all_is_union_witness :
  catalog_wf Examples.scenario
  /\ forall k,
      Dict.get k (filter_channels Examples.scenario ["all"%string] [])
      = last_write (catalog_maps Examples.scenario) k.
Proof.
  assert (W : catalog_wf Examples.scenario).
  { split.
    - repeat constructor; simpl; intuition discriminate.
    - repeat constructor; simpl; intuition discriminate. }
  split; [exact W|].
  apply (filter_all_is_union Examples.scenario W).
Defined.

(** The selector ["all"; "us"] selects the region "us" alone. *)
Lemma all_sentinel_exact_witness :
  ["all"; "us"]%string <> ["all"%string]
  /\ filter_channels Examples.scenario ["all"; "us"]%string []
     = [("1"%string, Examples.channel_a)]
  /\ select_regions Examples.scenario ["all"; "us"]%string
     = ["all"; "us"]%string.
Proof.
  split; [discriminate|]. split; [reflexivity|].
  apply (all_sentinel_exact Examples.scenario ["all"; "us"]%string []).
  discriminate.
Defined.

(** ** The run: fetcher, writer and top level *)

Lemma download_run env url w :
  download_and_decompress env url w
  = (fetch_result env (List.length (requests_sent w)) url, downloaded url w).
Proof.
  unfold download_and_decompress, fetch_result, downloaded, bind, print,
    requests_get, raise_for_status.
  cbn [say requests_sent].
  destruct (server env (List.length (requests_sent w)) url)
    as [status_code content| |]; cbn [fst snd]; auto.
  destruct ((400 <=? status_code) && (status_code <? 600)); cbn; auto.
  destruct (gunzip env content); auto.
Qed.

Lemma get_channel_data_run env w :
  get_channel_data env w
  = (catalog_result env (List.length (requests_sent w)), downloaded APP_URL w).
Proof.
  unfold get_channel_data, catalog_result, bind. rewrite download_run.
  destruct (fetch_result env (List.length (requests_sent w)) APP_URL)
    as [json_data|e]; auto.
  destruct (json_loads env json_data); auto.
Qed.

Lemma save_files_run env playlist_content epg_content w :
  save_files env playlist_content epg_content w
  = if writable env OUTPUT_DIR then
      if writable env PLAYLIST_PATH then
        let w1 := say (Say ("Saved playlist: " ++ PLAYLIST_PATH)%string)
                      (store PLAYLIST_PATH (TextFile playlist_content) w) in
        if writable env EPG_PATH then
          (Ok (PLAYLIST_PATH, EPG_PATH),
           say (Say ("Saved EPG: " ++ EPG_PATH)%string)
               (store EPG_PATH (BinaryFile epg_content) w1))
        else (Raise (OSError EPG_PATH), w1)
      else (Raise (OSError PLAYLIST_PATH), w)
    else (Raise (OSError OUTPUT_DIR), w).
Proof.
  unfold save_files, bind, makedirs, write_file, print, ret, raise.
  fold PLAYLIST_PATH. fold EPG_PATH.
  destruct (writable env OUTPUT_DIR); auto.
  destruct (writable env PLAYLIST_PATH); auto.
  cbv zeta.
  destruct (writable env EPG_PATH); auto.
Qed.

Lemma generate_readme_run env cfg w :
  generate_readme env cfg w
  = if writable env README_PATH then
      (Ok tt, say (Say ("Generated README: " ++ README_PATH)%string)
                  (store README_PATH (SummaryFile (utcnow env) cfg) w))
    else (Raise (OSError README_PATH), w).
Proof.
  unfold generate_readme, bind, write_file, print. fold README_PATH.
  destruct (writable env README_PATH); auto.
Qed.


Lemma requests_downloaded url w :
  requests_sent (downloaded url w) = requests_sent w ++ [url].
Proof. reflexivity. Qed.


Ltac close_run E :=
  injection E as <- <-;
  cbn [rbind fst snd files say store log_request downloaded requests_sent andb];
  rewrite <- ?app_assoc; auto.

Lemma main_body_cases fmt env cfg w r w' :
  main_body fmt env cfg w = (r, w') ->
  let n := List.length (requests_sent w) in
  r = run_result fmt env cfg n
  /\ match catalog_result env n with
     | Raise _ =>
         requests_sent w' = requests_sent w ++ [APP_URL]
         /\ files w' = files w
     | Ok data =>
         match playlist_of fmt cfg data with
         | Raise _ =>
             requests_sent w' = requests_sent w ++ [APP_URL]
             /\ files w' = files w
         | Ok text =>
             requests_sent w' = requests_sent w ++ [APP_URL; guide_url cfg]
             /\ match fetch_result env (S n) (guide_url cfg) with
                | Raise _ => files w' = files w
                | Ok epg =>
                    if writable env OUTPUT_DIR && writable env PLAYLIST_PATH
                    then
                      let f1 := Dict.set PLAYLIST_PATH (TextFile text) (files w) in
                      if writable env EPG_PATH then
                        let f2 := Dict.set EPG_PATH (BinaryFile epg) f1 in
                        if writable env README_PATH
                        then files w'
                             = Dict.set README_PATH
                                 (SummaryFile (utcnow env) cfg) f2
                        else files w' = f2
                      else files w' = f1
                    else files w' = files w
                end
         end
     end.
Proof.
  intros E n. unfold run_result, playlist_of, can_write.
  unfold main_body in E. cbv zeta in E.
  unfold bind at 1 2 3 4 5 6 in E. unfold print at 1 2 3 4 5 in E.
  rewrite get_channel_data_run in E. cbn [say requests_sent] in E. fold n in E.
  destruct (catalog_result env n) as [data|e]; cbn [rbind]; [|close_run E].
  unfold bind at 1 2 3 in E. unfold print at 1 2 in E. unfold lift in E.
  destruct (generate_m3u_playlist fmt cfg data
              (filter_channels data (selected_regions cfg) (selected_groups cfg)))
    as [text|e]; cbn [rbind]; [|close_run E].
  unfold bind at 1 in E. unfold get_epg_data in E. rewrite download_run in E.
  fold (guide_url cfg) in E.
  cbn [say requests_sent downloaded log_request] in E.
  rewrite length_app in E. cbn [List.length] in E. rewrite Nat.add_1_r in E.
  fold n in E.
  destruct (fetch_result env (S n) (guide_url cfg)) as [epg|e]; cbn [rbind]; [|close_run E].
  unfold bind at 1 2 in E. unfold print at 1 in E. rewrite save_files_run in E.
  destruct (writable env OUTPUT_DIR); [|close_run E].
  destruct (writable env PLAYLIST_PATH); [|close_run E].
  cbv zeta in E.
  destruct (writable env EPG_PATH); [|close_run E].
  unfold bind at 1 in E. rewrite generate_readme_run in E.
  destruct (writable env README_PATH); [|close_run E].
  unfold bind, print in E. close_run E.
Qed.

(** [main] prints its banner, runs the body, and reports and re-raises
    whatever the body raises. *)
Lemma main_run fmt env cfg w :
  let w0 := say (Say (repeat_str "=" 50))
                (say (Say "Samsung TV Plus M3U/EPG Generator for TiviMate") w) in
  main fmt env cfg w
  = match main_body fmt env cfg w0 with
    | (Ok u, w1) => (Ok u, w1)
    | (Raise e, w1) => (Raise e, say (SayError e) w1)
    end.
Proof.
  intros w0. unfold main, bind, print, try_except. fold w0.
  now destruct (main_body fmt env cfg w0) as [[u|e] w1].
Qed.

(** The result of a run and its effects on the request log and on the
    files, by the first stage that fails. *)
Lemma main_cases fmt env cfg w r w' :
  main fmt env cfg w = (r, w') ->
  let n := List.length (requests_sent w) in
  r = run_result fmt env cfg n
  /\ (forall e, r = Raise e -> exists pre, stdout w' = pre ++ [SayError e])
  /\ match catalog_result env n with
     | Raise _ =>
         requests_sent w' = requests_sent w ++ [APP_URL]
         /\ files w' = files w
     | Ok data =>
         match playlist_of fmt cfg data with
         | Raise _ =>
             requests_sent w' = requests_sent w ++ [APP_URL]
             /\ files w' = files w
         | Ok text =>
             requests_sent w' = requests_sent w ++ [APP_URL; guide_url cfg]
             /\ match fetch_result env (S n) (guide_url cfg) with
                | Raise _ => files w' = files w
                | Ok epg =>
                    if writable env OUTPUT_DIR && writable env PLAYLIST_PATH
                    then
                      let f1 := Dict.set PLAYLIST_PATH (TextFile text) (files w) in
                      if writable env EPG_PATH then
                        let f2 := Dict.set EPG_PATH (BinaryFile epg) f1 in
                        if writable env README_PATH
                        then files w'
                             = Dict.set README_PATH
                                 (SummaryFile (utcnow env) cfg) f2
                        else files w' = f2
                      else files w' = f1
                    else files w' = files w
                end
         end
     end.
Proof.
  rewrite main_run.
  destruct (main_body fmt env cfg
              (say (Say (repeat_str "=" 50))
                 (say (Say "Samsung TV Plus M3U/EPG Generator for TiviMate")
                    w))) as [r0 w1] eqn:E.
  apply main_body_cases in E. cbn [say requests_sent files] in E.
  destruct E as (Er & Ec). intros H n.
  assert (r = r0 /\ requests_sent w' = requests_sent w1
          /\ files w' = files w1
          /\ forall e, r = Raise e -> exists pre, stdout w' = pre ++ [SayError e])
    as (-> & -> & -> & Rep).
  { destruct r0 as [u|e]; injection H as <- <-; repeat split; auto.
    - discriminate.
    - intros e' [= <-]. now exists (stdout w1). }
  auto.
Qed.

Lemma fetch_result_status env k url status_code content :
  server env k url = Responds status_code content ->
  fetch_result env k url
  = if (400 <=? status_code) && (status_code <? 600)
    then Raise (HTTPError status_code)
    else match gunzip env content with
         | Some b => Ok b
         | None => Raise BadGzipFile
         end.
Proof. unfold fetch_result. now intros ->. Qed.

(** C8 (as amended).  The fetcher makes one request per call.  It raises
    on a timeout, on a failed connection and on a response whose status is
    400 to 599; a response with any other status, 2xx or not, raises
    nothing there and its body is decompressed.  A run consults each stage
    once, in order, and its result is that of the first stage that fails:
    no request is repeated, a failure while loading or formatting the
    catalog leaves the guide unrequested and the files untouched, and a
    failure while fetching the guide leaves the files untouched.  The
    exception is printed as the last console line and raised again, so the
    exit status is 1. *)
Theorem errors_abort_run
        (format_id : string -> string -> result string)
        (env : environment) (cfg : config) (w : world)
        (r : result unit) (w' : world) :
  main format_id env cfg w = (r, w') ->
  let n := List.length (requests_sent w) in
  (forall url w1,
      download_and_decompress env url w1
      = (fetch_result env (List.length (requests_sent w1)) url,
         downloaded url w1))
  /\ (forall k url,
         server env k url = TimesOut ->
         fetch_result env k url = Raise RequestTimeout)
  /\ (forall k url,
         server env k url = Unreachable ->
         fetch_result env k url = Raise ConnectionError)
  /\ (forall k url status_code content,
         server env k url = Responds status_code content ->
         (400 <= status_code < 600 ->
          fetch_result env k url = Raise (HTTPError status_code))
         /\ (~ 400 <= status_code < 600 ->
             fetch_result env k url
             = match gunzip env content with
               | Some b => Ok b
               | None => Raise BadGzipFile
               end))
  /\ r = run_result format_id env cfg n
  /\ (forall e,
         r = Raise e ->
         (exists pre, stdout w' = pre ++ [SayError e])
         /\ exit_status format_id env cfg w = 1)
  /\ (forall u, r = Ok u -> exit_status format_id env cfg w = 0)
  /\ (requests_sent w' = requests_sent w ++ [APP_URL]
      \/ requests_sent w' = requests_sent w ++ [APP_URL; guide_url cfg])
  /\ (forall e,
         catalog_result env n = Raise e ->
         r = Raise e
         /\ requests_sent w' = requests_sent w ++ [APP_URL]
         /\ files w' = files w)
  /\ (forall data e,
         catalog_result env n = Ok data ->
         playlist_of format_id cfg data = Raise e ->
         r = Raise e
         /\ requests_sent w' = requests_sent w ++ [APP_URL]
         /\ files w' = files w)
  /\ (forall data text e,
         catalog_result env n = Ok data ->
         playlist_of format_id cfg data = Ok text ->
         fetch_result env (S n) (guide_url cfg) = Raise e ->
         r = Raise e
         /\ requests_sent w' = requests_sent w ++ [APP_URL; guide_url cfg]
         /\ files w' = files w).
Proof.
  intros H n. pose proof (main_cases _ _ _ _ _ _ H) as (Er & Rep & Cases).
  fold n in Er, Cases.
  split; [intros; apply download_run|].
  split; [intros k url S; unfold fetch_result; now rewrite S|].
  split; [intros k url S; unfold fetch_result; now rewrite S|].
  split.
  { intros k url status_code content S.
    rewrite (fetch_result_status _ _ _ _ _ S). split; intros R.
    - replace ((400 <=? status_code) && (status_code <? 600)) with true; auto.
      symmetry. apply andb_true_iff. rewrite Z.leb_le, Z.ltb_lt. lia.
    - replace ((400 <=? status_code) && (status_code <? 600)) with false; auto.
      symmetry. apply not_true_is_false. rewrite andb_true_iff.
      rewrite Z.leb_le, Z.ltb_lt. lia. }
  split; [exact Er|].
  split.
  { intros e ->. split; auto. unfold exit_status. now rewrite H. }
  split.
  { intros u ->. unfold exit_status. now rewrite H. }
  split.
  { destruct (catalog_result env n) as [data|e]; [|tauto].
    destruct (playlist_of format_id cfg data); tauto. }
  unfold run_result in Er. split; [|split].
  - intros e C. rewrite C in Er, Cases. now split.
  - intros data e C P. rewrite C in Er, Cases. cbn [rbind] in Er.
    rewrite P in Er, Cases. now split.
  - intros data text e C P F. rewrite C in Er, Cases. cbn [rbind] in Er.
    rewrite P in Er, Cases. cbn [rbind] in Er. rewrite F in Er, Cases.
    destruct Cases. now split.
Qed.

Lemma paths_differ :
  README_PATH <> EPG_PATH /\ PLAYLIST_PATH <> EPG_PATH.
Proof. split; discriminate. Qed.

(** C7.  The writer stores the guide bytes it is given, unchanged, under
    the guide's file name.  In a run that succeeds, the bytes the guide
    download returned (the second request of the run, decompressed) are
    the content of that file at the end. *)
Theorem epg_passthrough
        (format_id : string -> string -> result string)
        (env : environment) (cfg : config) (w w' : world) :
  main format_id env cfg w = (Ok tt, w') ->
  (exists epg_content,
      fetch_result env (S (List.length (requests_sent w))) (guide_url cfg)
      = Ok epg_content
      /\ Dict.get EPG_PATH (files w') = Some (BinaryFile epg_content))
  /\ (forall region_code w1,
         fst (get_epg_data env region_code w1)
         = fetch_result env (List.length (requests_sent w1))
             (EPG_URL region_code))
  /\ (forall playlist_content epg_content w1 paths w2,
         save_files env playlist_content epg_content w1 = (Ok paths, w2) ->
         snd paths = EPG_PATH
         /\ Dict.get EPG_PATH (files w2) = Some (BinaryFile epg_content)).
Proof.
  intros H. pose proof (main_cases _ _ _ _ _ _ H) as (Er & _ & Cases).
  destruct paths_differ as [NR NP].
  split; [|split].
  - unfold run_result, can_write in Er.
    destruct (catalog_result env (List.length (requests_sent w)))
      as [data|]; [|discriminate].
    cbn [rbind] in Er.
    destruct (playlist_of format_id cfg data) as [text|]; [|discriminate].
    cbn [rbind] in Er. destruct Cases as [_ Cases].
    destruct (fetch_result env (S (List.length (requests_sent w)))
                (guide_url cfg)) as [epg|]; [|discriminate].
    cbn [rbind] in Er. exists epg. split; auto.
    destruct (writable env OUTPUT_DIR); [|discriminate]. cbn [rbind] in Er.
    destruct (writable env PLAYLIST_PATH); [|discriminate].
    cbn [rbind andb] in Er, Cases.
    destruct (writable env EPG_PATH); [|discriminate]. cbn [rbind] in Er.
    destruct (writable env README_PATH); [|discriminate].
    cbv zeta in Cases. rewrite Cases.
    rewrite get_set_other by exact NR. apply get_set_same.
  - intros region_code w1. unfold get_epg_data. now rewrite download_run.
  - intros playlist_content epg_content w1 paths w2 S.
    rewrite save_files_run in S.
    destruct (writable env OUTPUT_DIR); [|discriminate].
    destruct (writable env PLAYLIST_PATH); [|discriminate].
    cbv zeta in S.
    destruct (writable env EPG_PATH); [|discriminate].
    injection S as <- <-. split; auto.
    cbn [files say store]. apply get_set_same.
Qed.

(** C8, counterexample to the claim as stated.  The guide endpoint answers
    304 with an empty body: the download raises nothing and returns the
    empty byte string, and the run ends with exit status 0. *)
Lemma not_modified_is_not_an_error :
  ~ raises_on_non_2xx Examples.not_modified
  /\ fst (download_and_decompress Examples.not_modified (EPG_URL "all")
            Examples.fresh) = Ok []
  /\ fst (main format_id_simple Examples.not_modified Examples.defaults
            Examples.fresh) = Ok tt
  /\ exit_status format_id_simple Examples.not_modified Examples.defaults
       Examples.fresh = 0.
Proof.
  split; [|repeat split; reflexivity].
  intros R.
  destruct (R (EPG_URL "all") Examples.fresh 304 []) as [e He].
  - reflexivity.
  - lia.
  - discriminate He.
Qed.

(** The catalog request times out once: the run fails at once, although
    a second request would have been answered. *)
Lemma errors_abort_run_witness :
  main format_id_simple Examples.flaky Examples.defaults Examples.fresh
  = (Raise RequestTimeout,
     snd (main format_id_simple Examples.flaky Examples.defaults
            Examples.fresh))
  /\ exit_status format_id_simple Examples.flaky Examples.defaults
       Examples.fresh = 1.
Proof.
  split; [reflexivity|].
  destruct (errors_abort_run format_id_simple Examples.flaky
              Examples.defaults Examples.fresh (Raise RequestTimeout) _
              eq_refl) as (_ & _ & _ & _ & _ & Rep & _).
  now apply (Rep RequestTimeout).
Defined.

(** A run in which both downloads and all writes succeed. *)
Lemma epg_passthrough_witness :
  main format_id_simple Examples.healthy Examples.defaults Examples.fresh
  = (Ok tt,
     snd (main format_id_simple Examples.healthy Examples.defaults
            Examples.fresh))
  /\ exists epg_content,
      fetch_result Examples.healthy 1 (guide_url Examples.defaults)
      = Ok epg_content
      /\ Dict.get EPG_PATH
           (files (snd (main format_id_simple Examples.healthy
                          Examples.defaults Examples.fresh)))
         = Some (BinaryFile epg_content).
Proof.
  split; [reflexivity|].
  now destruct (epg_passthrough format_id_simple Examples.healthy
                  Examples.defaults Examples.fresh _ eq_refl) as (P & _).
Defined.

(** ** Settings: the selectors and the DRM flag *)

Lemma mentions_app c a b :
  mentions c (a ++ b)%string = mentions c a || mentions c b.
Proof.
  induction a as [|x a IH]; simpl; auto. now rewrite IH, orb_assoc.
Qed.

Lemma split_on_nonempty sep s : split_on sep s <> [].
Proof.
  destruct s as [|c s]; simpl; [discriminate|].
  destruct (Ascii.eqb c sep); [discriminate|].
  destruct (split_on sep s); discriminate.
Qed.

Lemma split_on_free sep s :
  Forall (fun x => mentions sep x = false) (split_on sep s).
Proof.
  induction s as [|c s IH]; simpl.
  - repeat constructor.
  - destruct (Ascii.eqb c sep) eqn:E.
    + constructor; auto.
    + destruct (split_on sep s) as [|t rest]; inversion IH; subst;
        constructor; simpl; auto; now rewrite E.
Qed.

Lemma split_on_app_sep sep x rest :
  mentions sep x = false ->
  split_on sep (x ++ String sep rest)%string = x :: split_on sep rest.
Proof.
  induction x as [|c x IH]; simpl.
  - now rewrite Ascii.eqb_refl.
  - intros M. apply orb_false_iff in M as [Mc Mx].
    rewrite Mc, IH by assumption. reflexivity.
Qed.

Lemma split_on_whole sep x :
  mentions sep x = false -> split_on sep x = [x].
Proof.
  induction x as [|c x IH]; simpl; auto.
  intros M. apply orb_false_iff in M as [Mc Mx].
  now rewrite Mc, IH.
Qed.

Lemma split_on_join sep l :
  l <> [] -> Forall (fun x => mentions sep x = false) l ->
  split_on sep (String.concat (String sep EmptyString) l) = l.
Proof.
  induction l as [|x l IH]; [congruence|]. intros _ F.
  inversion F as [|? ? Mx Fl]; subst. destruct l as [|y l].
  - now apply split_on_whole.
  - change (String.concat (String sep EmptyString) (x :: y :: l))
      with (x ++ String sep (String.concat (String sep EmptyString) (y :: l)))%string.
    rewrite split_on_app_sep by assumption.
    now rewrite IH by (assumption || discriminate).
Qed.

Lemma lstrip_fixed x : starts_with_space x = false -> lstrip x = x.
Proof. destruct x as [|c x]; simpl; auto. now intros ->. Qed.

Lemma rstrip_fixed x : ends_with_space x = false -> rstrip x = x.
Proof.
  induction x as [|c x IH]; simpl; auto.
  destruct x as [|d x].
  - simpl. now intros ->.
  - intros E. rewrite IH by exact E. reflexivity.
Qed.

Lemma strip_fixed x :
  starts_with_space x = false -> ends_with_space x = false -> strip x = x.
Proof.
  intros S E. unfold strip. rewrite lstrip_fixed by assumption.
  now apply rstrip_fixed.
Qed.

Lemma strip_mentions c s : mentions c s = false -> mentions c (strip s) = false.
Proof.
  destruct (strip_spec s) as (pre & post & E & _).
  intros M. rewrite E in M. rewrite !mentions_app in M.
  apply orb_false_iff in M as [_ M]. now apply orb_false_iff in M as [M _].
Qed.

Lemma parse_list_items_clean (s : string) :
  Forall clean_item (parse_list s).
Proof.
  unfold parse_list. apply Forall_forall. intros x I.
  apply filter_In in I as [I N]. apply in_map_iff in I as (y & <- & I).
  pose proof (split_on_free "," s) as F. rewrite Forall_forall in F.
  destruct (strip_spec y) as (pre & post & _ & _ & _ & S & E).
  repeat split; auto.
  - intros Z. now rewrite Z in N.
  - now apply strip_mentions, F.
Qed.

(** X1.  Whatever the settings, every item of the region selector and of
    the group selector that [main] parses is not empty, has no comma and
    has no whitespace at either end; the guard on an empty group setting
    changes nothing, for an empty setting parses to no item. *)
Theorem selectors_clean (cfg : config) :
  Forall clean_item (selected_regions cfg)
  /\ Forall clean_item (selected_groups cfg)
  /\ selected_groups cfg = parse_list (DEFAULT_GROUPS cfg).
Proof.
  assert (E : selected_groups cfg = parse_list (DEFAULT_GROUPS cfg)).
  { unfold selected_groups. now destruct (DEFAULT_GROUPS cfg). }
  split; [apply parse_list_items_clean|]. split; [|exact E].
  rewrite E. apply parse_list_items_clean.
Qed.

(** X2.  Round trip: clean items joined by commas parse back to the same
    list, in the same order. *)
Theorem parse_list_join (l : list string) :
  Forall clean_item l ->
  parse_list (join "," l) = l.
Proof.
  intros F. unfold parse_list, join.
  destruct l as [|x l]; [reflexivity|].
  rewrite (split_on_join "," (x :: l)).
  - induction F as [|y l' (N & _ & S & E) _ IH]; auto.
    cbn [map filter]. rewrite strip_fixed by assumption.
    destruct y; [congruence|]. now rewrite IH.
  - discriminate.
  - eapply Forall_impl; [|exact F]. now intros y (_ & M & _).
Qed.

Lemma parse_list_join_witness :
  Forall clean_item ["us"; "gb"]%string
  /\ parse_list (join "," ["us"; "gb"]%string) = ["us"; "gb"]%string.
Proof.
  assert (F : Forall clean_item ["us"; "gb"]%string)
    by (repeat constructor; discriminate).
  split; [exact F | exact (parse_list_join _ F)].
Defined.

(** X3.  The DRM flag is on exactly when the variable is unset or its value
    is "true" in any letter case; every other value turns it off. *)
Theorem include_drm_setting_true (environ : string -> option string) :
  include_drm_setting environ = true
  <-> match environ "INCLUDE_DRM"%string with
      | None => True
      | Some value => caseless_eq value "true"
      end.
Proof.
  unfold include_drm_setting, getenv_or. rewrite String.eqb_eq.
  destruct (environ "INCLUDE_DRM"%string) as [value|].
  - change "true"%string with (lower "true") at 1. apply lower_caseless.
  - split; auto.
Qed.

(** ** Channel filter: further properties *)

Lemma In_set {V : Type} (k k' : string) (v v' : V) (d : dict V) :
  In (k, v) (Dict.set k' v' d) -> (k, v) = (k', v') \/ In (k, v) d.
Proof.
  induction d as [|[k0 v0] d IH]; simpl.
  - intros [E|[]]; auto.
  - destruct (String.eqb k' k0) eqn:E; simpl.
    + apply String.eqb_eq in E; subst. intros [H|H]; auto.
    + intros [H|H]; auto. apply IH in H as [H|H]; auto.
Qed.

Lemma In_update {V : Type} (kv : string * V) (d o : dict V) :
  In kv (Dict.update d o) -> In kv d \/ In kv o.
Proof.
  unfold Dict.update. revert d.
  induction o as [|[k' v'] o IH]; intros d; simpl; auto.
  intros H. apply IH in H as [H|H]; auto.
  destruct kv as [k v]. apply In_set in H as [H|H]; auto.
Qed.

Lemma merge_fold_source (data : catalog) (selected : list string) :
  forall acc kv,
    In kv (fold_left (merge_step data) selected acc) ->
    In kv acc
    \/ exists r reg,
        In r selected /\ Dict.get r (regions data) = Some reg
        /\ In kv (region_channels reg).
Proof.
  induction selected as [|r sel IH]; intros acc kv; simpl; auto.
  intros H. apply IH in H as [H|(r' & reg & I & G & K)].
  - unfold merge_step in H.
    destruct (Dict.get r (regions data)) as [reg|] eqn:G; auto.
    apply In_update in H as [H|H]; auto.
    right. exists r, reg. auto.
  - right. exists r', reg. auto.
Qed.

Lemma wf_filter {V : Type} (p : string * V -> bool) (d : dict V) :
  Dict.wf d -> Dict.wf (filter p d).
Proof.
  unfold Dict.wf, Dict.keys. induction d as [|[k v] d IH]; simpl; auto.
  intros W. inversion W as [|? ? N W']; subst.
  destruct (p (k, v)); simpl; auto. constructor; auto.
  intros I. apply N. apply in_map_iff in I as (kv & E & I).
  apply filter_In in I as [I _]. apply in_map_iff. eauto.
Qed.

Lemma filter_groups_wf (groups : list string) (chans : dict channel) :
  Dict.wf chans -> Dict.wf (filter_groups groups chans).
Proof.
  intros W. destruct groups as [|g0 gs]; auto.
  rewrite filter_groups_nonempty by assumption. now apply wf_filter.
Qed.

Lemma filter_groups_incl (groups : list string) (chans : dict channel) kv :
  Dict.wf chans -> In kv (filter_groups groups chans) -> In kv chans.
Proof.
  intros W. destruct groups as [|g0 gs]; auto.
  rewrite filter_groups_nonempty by assumption.
  intros I. now apply filter_In in I.
Qed.

(** X4.  For every catalog and every selector the filter returns a proper
    dictionary, no identifier twice, and every channel it returns is a
    channel of a selected region of the catalog under that identifier. *)
Theorem filter_channels_sound (data : catalog)
        (selected groups : list string) :
  Dict.wf (filter_channels data selected groups)
  /\ forall channel_id ch,
      In (channel_id, ch) (filter_channels data selected groups) ->
      exists r reg,
        In r (select_regions data selected)
        /\ Dict.get r (regions data) = Some reg
        /\ In (channel_id, ch) (region_channels reg).
Proof.
  unfold filter_channels. split.
  - apply filter_groups_wf, merge_regions_wf.
  - intros channel_id ch I.
    apply filter_groups_incl in I; [|apply merge_regions_wf].
    apply merge_fold_source in I as [[]|H]. exact H.
Qed.

Lemma merge_fold_maps (data : catalog) (selected : list string) :
  forall acc,
    fold_left (merge_step data) selected acc
    = fold_left Dict.update (selected_maps data selected) acc.
Proof.
  induction selected as [|r sel IH]; intros acc; simpl; auto.
  rewrite fold_left_app, IH. f_equal. unfold merge_step.
  now destruct (Dict.get r (regions data)).
Qed.

Lemma selected_maps_wf (data : catalog) (selected : list string) :
  Forall Dict.wf (catalog_maps data) ->
  Forall Dict.wf (selected_maps data selected).
Proof.
  intros W. apply Forall_forall. intros m I.
  unfold selected_maps in I. apply in_flat_map in I as (r & _ & I).
  destruct (Dict.get r (regions data)) as [reg|] eqn:G; [|destruct I].
  destruct I as [<-|[]]. rewrite Forall_forall in W. apply W.
  unfold catalog_maps. apply get_In in G.
  change (region_channels reg) with
    ((fun kv : string * region => region_channels (snd kv)) (r, reg)).
  now apply in_map.
Qed.

(** X5.  With an explicit selector the regions are merged in the order of
    the selector, not of the catalog: an identifier is bound to its channel
    in the last selected region that has it, codes that name no region
    being passed over. *)
Theorem explicit_selector_order (data : catalog) (selected : list string) :
  Forall Dict.wf (catalog_maps data) ->
  selected <> ["all"%string] ->
  forall k,
    Dict.get k (filter_channels data selected [])
    = last_write (selected_maps data selected) k.
Proof.
  intros W N k. unfold filter_channels.
  rewrite select_regions_other by assumption. simpl filter_groups.
  unfold merge_regions. rewrite merge_fold_maps.
  rewrite fold_update_get by now apply selected_maps_wf.
  now destruct (last_write (selected_maps data selected) k).
Qed.

Lemma existsb_ext_In {A : Type} (f : A -> bool) (l1 l2 : list A) :
  (forall x, In x l1 <-> In x l2) -> existsb f l1 = existsb f l2.
Proof.
  intros H. destruct (existsb f l1) eqn:E1; symmetry.
  - apply existsb_exists in E1 as (x & I & F). apply existsb_exists.
    exists x. split; auto. now apply H.
  - destruct (existsb f l2) eqn:E2; auto.
    apply existsb_exists in E2 as (x & I & F).
    assert (existsb f l1 = true) by (apply existsb_exists; exists x; split; auto; now apply H).
    congruence.
Qed.

(** X6.  Only the set of lower-cased labels of a non-empty group selector
    matters: two selectors that give the same labels once lower-cased,
    whatever their order, repetitions and letter case, retain the same
    channels in the same order. *)
Theorem group_selector_caseless (data : catalog)
        (selected groups1 groups2 : list string) :
  groups1 <> [] -> groups2 <> [] ->
  (forall x, In x (map lower groups1) <-> In x (map lower groups2)) ->
  filter_channels data selected groups1
  = filter_channels data selected groups2.
Proof.
  intros N1 N2 H. unfold filter_channels.
  destruct groups1 as [|a1 g1]; [congruence|].
  destruct groups2 as [|a2 g2]; [congruence|].
  rewrite !filter_groups_nonempty by apply merge_regions_wf.
  apply filter_ext. intros kv. unfold group_selected.
  now apply existsb_ext_In.
Qed.

Lemma explicit_selector_order_witness :
  Forall Dict.wf (catalog_maps Examples.scenario)
  /\ ["uk"; "us"]%string <> ["all"%string]
  /\ Dict.get "1" (filter_channels Examples.scenario ["uk"; "us"]%string [])
     = last_write (selected_maps Examples.scenario ["uk"; "us"]%string) "1".
Proof.
  assert (W : Forall Dict.wf (catalog_maps Examples.scenario)).
  { repeat constructor; simpl; intuition discriminate. }
  assert (N : ["uk"; "us"]%string <> ["all"%string]) by discriminate.
  split; [exact W|]. split; [exact N|].
  exact (explicit_selector_order Examples.scenario _ W N "1"%string).
Defined.

Lemma group_selector_caseless_witness :
  ["News"; "news"]%string <> [] /\ ["NEWS"%string] <> []
  /\ filter_channels Examples.scenario ["all"%string] ["News"; "news"]%string
     = filter_channels Examples.scenario ["all"%string] ["NEWS"%string].
Proof.
  split; [discriminate|]. split; [discriminate|].
  apply group_selector_caseless; try discriminate.
  intros x. simpl. tauto.
Defined.

(** ** Playlist formatter: success, coverage and the DRM flag *)





Lemma Permutation_filter {A : Type} (p : A -> bool) (l1 l2 : list A) :
  Permutation l1 l2 -> Permutation (filter p l1) (filter p l2).
Proof.
  induction 1 as [|x l1 l2 _ IH|x y l|l1 l2 l3 _ IH1 _ IH2]; simpl; auto.
  - destruct (p x); auto.
  - destruct (p x), (p y); auto. apply perm_swap.
  - now transitivity (filter p l2).
Qed.

(** X8.  Every channel that is not skipped gets exactly one entry: the
    identifiers of the entries are those of the channels that are not
    skipped, rearranged, and no identifier occurs twice among them. *)
Theorem one_entry_per_channel
        (format_id : string -> string -> result string)
        (cfg : config) (data : catalog) (chans : dict channel)
        (es : list entry) :
  Dict.wf chans ->
  playlist_entries format_id cfg data chans = Ok es ->
  Permutation (map tvg_id es) (map fst (emitted cfg chans))
  /\ NoDup (map tvg_id es)
  /\ List.length es = List.length (emitted cfg chans).
Proof.
  intros W H.
  assert (P : Permutation (map tvg_id es) (map fst (emitted cfg chans))).
  { rewrite (entries_ids _ _ _ _ _ H). apply Permutation_map.
    unfold emitted. apply Permutation_filter, sort_channels_perm. }
  split; [exact P|]. split.
  - eapply Permutation_NoDup; [symmetry; exact P|].
    unfold emitted. now apply wf_filter.
  - apply Permutation_length in P. now rewrite !length_map in P.
Qed.

Lemma emitted_all cfg l :
  INCLUDE_DRM cfg = true -> emitted cfg l = l.
Proof.
  intros D. unfold emitted. apply forallb_filter_id, forallb_forall.
  intros kv _. unfold skipped. rewrite D. now rewrite andb_false_r.
Qed.

(** X9.  With the DRM flag on no channel is skipped: there are as many
    entries as channels, in sort order, and an entry has the marker
    appended to its name and the licence attribute exactly when its
    channel has a non-empty licence URL, which the attribute repeats. *)
Theorem drm_channels_marked
        (format_id : string -> string -> result string)
        (cfg : config) (data : catalog) (chans : dict channel)
        (es : list entry) :
  INCLUDE_DRM cfg = true ->
  playlist_entries format_id cfg data chans = Ok es ->
  List.length es = List.length chans
  /\ Forall2 marked_entry_of (sort_channels cfg chans) es.
Proof.
  intros D H.
  assert (F2 : Forall2 marked_entry_of (sort_channels cfg chans) es).
  { unfold playlist_entries in H. apply loop_Forall2 in H.
    rewrite emitted_all in H by assumption.
    eapply Forall2_impl; [|exact H].
    intros kv e (m & m' & F).
    apply format_channel_inv in F as (Hid & Hlogo & Hg & Hn & Hl & _).
    unfold marked_entry_of. repeat split; auto.
    destruct (truthy_str (license_url (snd kv))); auto. }
  split; [|exact F2].
  apply Forall2_length in F2. rewrite <- F2.
  apply Permutation_length, sort_channels_perm.
Qed.

Lemma one_entry_per_channel_witness :
  Dict.wf Examples.mixed_numbers
  /\ playlist_entries format_id_simple Examples.defaults Examples.scenario
       Examples.mixed_numbers
     = Ok (Examples.entries_of Examples.defaults Examples.scenario
             Examples.mixed_numbers)
  /\ NoDup (map tvg_id
              (Examples.entries_of Examples.defaults Examples.scenario
                 Examples.mixed_numbers)).
Proof.
  assert (W : Dict.wf Examples.mixed_numbers).
  { repeat constructor; simpl; intuition discriminate. }
  split; [exact W|]. split; [reflexivity|].
  destruct (one_entry_per_channel format_id_simple Examples.defaults
              Examples.scenario Examples.mixed_numbers _ W eq_refl)
    as (_ & N & _).
  exact N.
Defined.

Lemma drm_channels_marked_witness :
  INCLUDE_DRM Examples.by_name = true
  /\ playlist_entries format_id_simple Examples.by_name Examples.scenario
       (filter_channels Examples.scenario ["all"%string] [])
     = Ok (Examples.entries_of Examples.by_name Examples.scenario
             (filter_channels Examples.scenario ["all"%string] []))
  /\ List.length
       (Examples.entries_of Examples.by_name Examples.scenario
          (filter_channels Examples.scenario ["all"%string] []))
     = List.length (filter_channels Examples.scenario ["all"%string] []).
Proof.
  split; [reflexivity|]. split; [reflexivity|].
  destruct (drm_channels_marked format_id_simple Examples.by_name
              Examples.scenario
              (filter_channels Examples.scenario ["all"%string] [])
              _ eq_refl eq_refl) as (L & _).
  exact L.
Defined.

(** ** Counting occurrences: the statistics of a run *)

Lemma prefix_length p s :
  String.prefix p s = true -> (String.length p <= String.length s)%nat.
Proof.
  revert s. induction p as [|x p IH]; intros [|y s]; simpl; try lia;
    try discriminate.
  destruct (ascii_dec x y); [|discriminate]. intros H. apply IH in H. lia.
Qed.

Lemma count_from_app_sep c p :
  p <> EmptyString -> mentions c p = false ->
  forall b a k,
    (k <= String.length a)%nat ->
    count_from p (a ++ String c b)%string k
    = (count_from p a k + count_from p b O)%nat.
Proof.
  intros N M b. induction a as [|y a IH]; intros k K.
  - simpl in K. assert (k = O) as -> by lia.
    cbn [String.append count_from].
    change (String c b) with (EmptyString ++ String c b)%string at 1.
    rewrite prefix_app_sep by assumption.
    destruct p; [congruence|]. reflexivity.
  - cbn [String.append count_from]. destruct k as [|k].
    + change (String y (a ++ String c b))
        with (String y a ++ String c b)%string.
      rewrite prefix_app_sep by assumption.
      destruct (String.prefix p (String y a)) eqn:P.
      * apply prefix_length in P. simpl in P.
        rewrite IH by lia. reflexivity.
      * apply IH. lia.
    + apply IH. simpl in K. lia.
Qed.

Lemma count_app_sep c p a b :
  p <> EmptyString -> mentions c p = false ->
  count p (a ++ String c b)%string = (count p a + count p b)%nat.
Proof.
  intros N M. unfold count. apply count_from_app_sep; auto. lia.
Qed.

Lemma count_from_zero p s :
  contains p s = false -> forall k, count_from p s k = O.
Proof.
  induction s as [|c s IH]; intros H k; auto.
  rewrite contains_unfold in H. apply orb_false_iff in H as [P C].
  cbn [count_from]. destruct k; [rewrite P|]; auto.
Qed.

Lemma count_zero p s : contains p s = false -> count p s = O.
Proof. intros H. now apply count_from_zero. Qed.

Lemma count_join p ls :
  p <> EmptyString -> mentions (ascii_of_nat 10) p = false ->
  count p (join nl ls) = list_sum (map (count p) ls).
Proof.
  intros N M. unfold join. induction ls as [|x ls IH]; [reflexivity|].
  destruct ls as [|y ls].
  - simpl. lia.
  - change (String.concat nl (x :: y :: ls))
      with (x ++ String (ascii_of_nat 10) (String.concat nl (y :: ls)))%string.
    rewrite count_app_sep, IH by assumption. reflexivity.
Qed.

Lemma string_app_sep_assoc c a b d :
  ((a ++ String c b) ++ d)%string = (a ++ String c (b ++ d))%string.
Proof. induction a as [|x a IH]; simpl; [|rewrite IH]; reflexivity. Qed.

Lemma separable_parts p :
  separable p = true ->
  p <> EmptyString
  /\ mentions (ascii_of_nat 34) p = false
  /\ mentions (ascii_of_nat 10) p = false
  /\ mentions "," p = false
  /\ mentions " " p = false
  /\ starts_outside "-0123456789" p = true.
Proof.
  unfold separable. rewrite !andb_true_iff, !negb_true_iff.
  intros ((((Q & L) & C) & S) & D). repeat split; auto.
  intros ->. discriminate D.
Qed.

(** The occurrences of a separable text in a metadata line are those in
    its keywords and in its values. *)
Lemma count_extinf_line p e :
  separable p = true ->
  count p (extinf_line e)
  = (count p "#EXTINF:-1 tvg-id=" + count p (tvg_id e)
     + count p " tvg-name=" + count p (tvg_name e)
     + count p " tvg-logo=" + count p (tvg_logo e)
     + count p " group-title=" + count p (group_title e)
     + count p " tvg-chno="
     + match drm_license_url e with
       | Some lic => count p " drm=" + count p "true"
                     + count p " license-url=" + count p lic
       | None => O
       end
     + count p (tvg_name e))%nat.
Proof.
  intros S. apply separable_parts in S as (N & Q & _ & C & _ & D).
  assert (Edq : forall x, (dq ++ x)%string = String (ascii_of_nat 34) x)
    by reflexivity.
  assert (E0 : count p EmptyString = O) by reflexivity.
  assert (En : count p (str_of_int (tvg_chno e)) = O)
    by (apply count_zero, (contains_outside _ _ _ D (str_of_int_digits _))).
  unfold extinf_line. destruct (drm_license_url e) as [lic|].
  - rewrite !Edq.
    change dq with (String (ascii_of_nat 34) EmptyString).
    rewrite !string_app_sep_assoc.
    change (EmptyString ++ "," ++ tvg_name e)%string
      with (EmptyString ++ String "," (tvg_name e))%string.
    rewrite !(count_app_sep _ p _ _ N Q).
    rewrite (count_app_sep ","%char p EmptyString (tvg_name e) N C).
    rewrite E0, En. lia.
  - rewrite !Edq.
    change (EmptyString ++ "," ++ tvg_name e)%string
      with (EmptyString ++ String "," (tvg_name e))%string.
    rewrite !(count_app_sep _ p _ _ N Q).
    rewrite (count_app_sep ","%char p EmptyString (tvg_name e) N C).
    rewrite E0, En. lia.
Qed.

Lemma list_sum_cons (a : nat) (l : list nat) :
  list_sum (a :: l) = (a + list_sum l)%nat.
Proof. reflexivity. Qed.

Lemma Ok_inj {A : Type} (a b : A) : Ok a = Ok b -> a = b.
Proof. now intros [= ->]. Qed.

Lemma entries_marked format_id cfg data chans es :
  playlist_entries format_id cfg data chans = Ok es ->
  Forall2
    (fun kv e =>
       marked_entry_of kv e
       /\ exists s, format_id (slug data) (fst kv) = Ok s
                    /\ url e = ("https://jmp2.uk/" ++ s)%string)
    (emitted cfg (sort_channels cfg chans)) es.
Proof.
  unfold playlist_entries. intros H. apply loop_Forall2 in H.
  eapply Forall2_impl; [|exact H]. intros kv e (m & m' & F).
  apply format_channel_inv in F as (Hid & Hlogo & Hg & Hn & Hl & Hu & _).
  split; auto. unfold marked_entry_of. repeat split; auto.
  destruct (truthy_str (license_url (snd kv))); auto.
Qed.

(** One entry adds to the count what its keywords and, for a DRM entry,
    its marker and attributes hold, when the values of its channel hold
    nothing. *)
Lemma count_entry_lines p format_id data kv e :
  separable p = true ->
  marked_entry_of kv e ->
  (exists s, format_id (slug data) (fst kv) = Ok s
             /\ url e = ("https://jmp2.uk/" ++ s)%string) ->
  channel_values_free_of p format_id data kv ->
  list_sum (map (count p) (entry_lines e))
  = (keyword_count p
     + if has_license kv then drm_keyword_count p else O)%nat.
Proof.
  intros S (Hid & Hlogo & Hg & Hn) (s & Fs & Hu)
         ((Fid & Fname & Flogo & Fgroup & Furl) & Flic).
  pose proof (separable_parts _ S) as (N & _ & _ & _ & Sp & _).
  unfold entry_lines. cbn [map]. rewrite !list_sum_cons.
  change (list_sum []) with O.
  rewrite count_extinf_line by assumption.
  rewrite Hid, Hlogo, Hu, (count_zero _ _ Fid), (count_zero _ _ Flogo),
    (count_zero _ _ (Furl s Fs)).
  assert (Eg : count p (group_title e) = O).
  { apply count_zero. unfold group_label in Fgroup.
    now rewrite Hg in Fgroup. }
  rewrite Eg. unfold has_license, keyword_count, drm_keyword_count.
  destruct (truthy_str (license_url (snd kv))) eqn:T.
  - destruct Hn as [-> ->].
    destruct (license_url (snd kv)) as [lic|] eqn:L; [|discriminate].
    rewrite (count_zero _ _ (Flic lic eq_refl)).
    change (name (snd kv) ++ " [DRM]")%string
      with (name (snd kv) ++ String " " "[DRM]")%string.
    rewrite (count_app_sep " "%char p _ _ N Sp), (count_zero _ _ Fname).
    lia.
  - destruct Hn as [-> ->]. rewrite (count_zero _ _ Fname). lia.
Qed.

(** The occurrences of a separable text in the playlist, when the copied
    values hold none: those of the header, of the keywords of each entry
    and of what each DRM entry adds. *)
Lemma count_playlist p format_id cfg data chans text :
  separable p = true ->
  generate_m3u_playlist format_id cfg data chans = Ok text ->
  Forall (channel_values_free_of p format_id data) (emitted cfg chans) ->
  count p text
  = (count p "#EXTM3U"
     + keyword_count p * List.length (emitted cfg chans)
     + drm_keyword_count p
       * List.length (filter has_license (emitted cfg chans)))%nat.
Proof.
  intros S H Fr. unfold generate_m3u_playlist in H.
  destruct (playlist_entries format_id cfg data chans) as [es|] eqn:E;
    [|discriminate].
  cbn [rbind] in H. apply Ok_inj in H. subst text.
  pose proof (separable_parts _ S) as (N & _ & Nl & _).
  rewrite count_join by assumption. cbn [map]. rewrite list_sum_cons.
  pose proof (entries_marked _ _ _ _ _ E) as F2.
  assert (P : Permutation (emitted cfg (sort_channels cfg chans))
                          (emitted cfg chans))
    by (unfold emitted; apply Permutation_filter, sort_channels_perm).
  rewrite <- (Permutation_length P).
  rewrite <- (Permutation_length (Permutation_filter has_license _ _ P)).
  apply (Permutation_Forall (Permutation_sym P)) in Fr.
  clear E P. rewrite <- Nat.add_assoc. f_equal.
  induction F2 as [|kv e out es' (M & U) _ IH].
  { cbn [flat_map map filter List.length]. change (list_sum []) with O.
    lia. }
  inversion Fr as [|? ? Fk Fr']; subst.
  cbn [flat_map]. rewrite map_app, list_sum_app.
  rewrite (count_entry_lines p format_id data kv e) by assumption.
  rewrite IH by assumption. cbn [filter List.length].
  destruct (has_license kv); cbn [List.length]; lia.
Qed.

(** X10.  The "Total channels" statistic, the number of occurrences of
    "#EXTINF" in the playlist, is the number of channels that are not
    skipped, provided no value copied from such a channel holds that
    text. *)
Theorem total_channels_statistic
        (format_id : string -> string -> result string)
        (cfg : config) (data : catalog) (chans : dict channel)
        (text : string) :
  generate_m3u_playlist format_id cfg data chans = Ok text ->
  Forall (channel_values_free_of "#EXTINF" format_id data)
         (emitted cfg chans) ->
  count "#EXTINF" text = List.length (emitted cfg chans).
Proof.
  intros H Fr.
  rewrite (count_playlist "#EXTINF" _ _ _ _ _ eq_refl H Fr).
  change (count "#EXTINF" "#EXTM3U") with O.
  change (keyword_count "#EXTINF") with 1%nat.
  change (drm_keyword_count "#EXTINF") with O. lia.
Qed.

(** X11.  The "DRM channels" statistic, the number of occurrences of
    "[DRM]" in the playlist, is twice the number of emitted channels with
    a licence URL, since the line of such a channel shows its marked name
    two times, provided no value copied from an emitted channel holds
    that text. *)
Theorem drm_channels_statistic
        (format_id : string -> string -> result string)
        (cfg : config) (data : catalog) (chans : dict channel)
        (text : string) :
  generate_m3u_playlist format_id cfg data chans = Ok text ->
  Forall (channel_values_free_of "[DRM]" format_id data)
         (emitted cfg chans) ->
  count "[DRM]" text
  = (2 * List.length (filter has_license (emitted cfg chans)))%nat.
Proof.
  intros H Fr.
  rewrite (count_playlist "[DRM]" _ _ _ _ _ eq_refl H Fr).
  change (count "[DRM]" "#EXTM3U") with O.
  change (keyword_count "[DRM]") with O.
  change (drm_keyword_count "[DRM]") with 2%nat. lia.
Qed.

Lemma count_char_app c a b :
  count (String c EmptyString) (a ++ b)%string
  = (count (String c EmptyString) a + count (String c EmptyString) b)%nat.
Proof.
  unfold count. induction a as [|y a IH]; [reflexivity|].
  cbn [String.append count_from String.length Nat.sub String.prefix].
  destruct (ascii_dec c y).
  - assert (P : forall r, String.prefix EmptyString r = true)
      by now destruct r.
    rewrite !P, IH. reflexivity.
  - exact IH.
Qed.

Lemma count_char_join c ls :
  ls <> [] ->
  count (String c EmptyString) (String.concat (String c EmptyString) ls)
  = (list_sum (map (count (String c EmptyString)) ls)
     + (List.length ls - 1))%nat.
Proof.
  induction ls as [|x ls IH]; [congruence|]. intros _.
  destruct ls as [|y ls].
  - simpl. lia.
  - change (String.concat (String c EmptyString) (x :: y :: ls))
      with (x ++ String c EmptyString
              ++ String.concat (String c EmptyString) (y :: ls))%string.
    rewrite !count_char_app, IH by discriminate.
    assert (E : count (String c EmptyString) (String c EmptyString) = 1%nat).
    { unfold count. cbn. destruct (ascii_dec c c); congruence. }
    rewrite E. cbn [map List.length]. rewrite !list_sum_cons. lia.
Qed.

Lemma count_nl_entry_lines format_id data kv e :
  marked_entry_of kv e ->
  (exists s, format_id (slug data) (fst kv) = Ok s
             /\ url e = ("https://jmp2.uk/" ++ s)%string) ->
  channel_values_free_of nl format_id data kv ->
  list_sum (map (count nl) (entry_lines e)) = O.
Proof.
  intros (Hid & Hlogo & Hg & Hn) (s & Fs & Hu)
         ((Fid & Fname & Flogo & Fgroup & Furl) & Flic).
  assert (Eg : count nl (group_title e) = O).
  { apply count_zero. unfold group_label in Fgroup.
    now rewrite Hg in Fgroup. }
  assert (En : count nl (str_of_int (tvg_chno e)) = O).
  { apply count_zero.
    apply (contains_outside "-0123456789"); [reflexivity|].
    apply str_of_int_digits. }
  unfold entry_lines, extinf_line. cbn [map]. rewrite !list_sum_cons.
  change (list_sum []) with O.
  rewrite Hu, (count_zero _ _ (Furl s Fs)).
  destruct (truthy_str (license_url (snd kv))) eqn:T.
  - destruct Hn as [En1 El]. rewrite El.
    destruct (license_url (snd kv)) as [lic|] eqn:L; [|discriminate].
    unfold nl, char in *. rewrite !count_char_app.
    rewrite Hid, Hlogo, En1, count_char_app.
    rewrite (count_zero _ _ Fid), (count_zero _ _ Flogo),
      (count_zero _ _ Fname), (count_zero _ _ (Flic lic eq_refl)), Eg, En.
    reflexivity.
  - destruct Hn as [En1 El]. rewrite El.
    unfold nl, char in *. rewrite !count_char_app.
    rewrite Hid, Hlogo, En1.
    rewrite (count_zero _ _ Fid), (count_zero _ _ Flogo),
      (count_zero _ _ Fname), Eg, En.
    reflexivity.
Qed.

(** X12.  The "Playlist lines" statistic, the number of line feeds in the
    playlist, is twice the number of channels that are not skipped (the
    header line is the one not counted), provided no value copied from
    such a channel holds a line feed. *)
Theorem playlist_lines_statistic
        (format_id : string -> string -> result string)
        (cfg : config) (data : catalog) (chans : dict channel)
        (text : string) :
  generate_m3u_playlist format_id cfg data chans = Ok text ->
  Forall (channel_values_free_of nl format_id data) (emitted cfg chans) ->
  count nl text = (2 * List.length (emitted cfg chans))%nat.
Proof.
  intros H Fr. unfold generate_m3u_playlist in H.
  destruct (playlist_entries format_id cfg data chans) as [es|] eqn:E;
    [|discriminate].
  cbn [rbind] in H. apply Ok_inj in H. subst text.
  pose proof (entries_marked _ _ _ _ _ E) as F2.
  assert (P : Permutation (emitted cfg (sort_channels cfg chans))
                          (emitted cfg chans))
    by (unfold emitted; apply Permutation_filter, sort_channels_perm).
  rewrite <- (Permutation_length P).
  apply (Permutation_Forall (Permutation_sym P)) in Fr.
  unfold join. change nl with (String (ascii_of_nat 10) EmptyString) at 1 2.
  rewrite count_char_join by discriminate.
  change (String (ascii_of_nat 10) EmptyString) with nl.
  cbn [map List.length]. rewrite list_sum_cons.
  change (count nl "#EXTM3U") with O.
  clear E P.
  assert (S : list_sum (map (count nl) (flat_map entry_lines es)) = O
              /\ List.length (flat_map entry_lines es)
                 = (2 * List.length (emitted cfg (sort_channels cfg chans)))%nat).
  { induction F2 as [|kv e out es' (M & U) _ IH]; [split; reflexivity|].
    inversion Fr as [|? ? Fk Fr']; subst.
    destruct (IH Fr') as [IH1 IH2].
    cbn [flat_map]. rewrite map_app, list_sum_app, length_app.
    rewrite (count_nl_entry_lines format_id data kv e) by assumption.
    rewrite IH1, IH2. cbn [entry_lines List.length]. split; lia. }
  destruct S as [-> ->]. lia.
Qed.

Ltac free_values :=
  repeat constructor; simpl;
  try (intros ? [= <-]); reflexivity.

(** The statistics of the second scenario of the specification: two
    entries, one of them a DRM entry, five lines. *)
Lemma total_channels_statistic_witness :
  generate_m3u_playlist format_id_simple Examples.by_name Examples.scenario
    (filter_channels Examples.scenario ["all"%string] [])
  = Ok (example_playlist Examples.by_name Examples.scenario
          (filter_channels Examples.scenario ["all"%string] []))
  /\ count "#EXTINF"
       (example_playlist Examples.by_name Examples.scenario
          (filter_channels Examples.scenario ["all"%string] []))
     = 2%nat.
Proof.
  split; [reflexivity|].
  apply (total_channels_statistic format_id_simple Examples.by_name
           Examples.scenario
           (filter_channels Examples.scenario ["all"%string] []) _ eq_refl).
  free_values.
Defined.

Lemma drm_channels_statistic_witness :
  generate_m3u_playlist format_id_simple Examples.by_name Examples.scenario
    (filter_channels Examples.scenario ["all"%string] [])
  = Ok (example_playlist Examples.by_name Examples.scenario
          (filter_channels Examples.scenario ["all"%string] []))
  /\ count "[DRM]"
       (example_playlist Examples.by_name Examples.scenario
          (filter_channels Examples.scenario ["all"%string] []))
     = 2%nat.
Proof.
  split; [reflexivity|].
  apply (drm_channels_statistic format_id_simple Examples.by_name
           Examples.scenario
           (filter_channels Examples.scenario ["all"%string] []) _ eq_refl).
  free_values.
Defined.

Lemma playlist_lines_statistic_witness :
  generate_m3u_playlist format_id_simple Examples.by_name Examples.scenario
    (filter_channels Examples.scenario ["all"%string] [])
  = Ok (example_playlist Examples.by_name Examples.scenario
          (filter_channels Examples.scenario ["all"%string] []))
  /\ count nl
       (example_playlist Examples.by_name Examples.scenario
          (filter_channels Examples.scenario ["all"%string] []))
     = 4%nat.
Proof.
  split; [reflexivity|].
  apply (playlist_lines_statistic format_id_simple Examples.by_name
           Examples.scenario
           (filter_channels Examples.scenario ["all"%string] []) _ eq_refl).
  free_values.
Defined.

(** ** The run: files and console *)

Lemma get_set_if {V : Type} (k k' : string) (v : V) (d : dict V) :
  Dict.get k' (Dict.set k v d)
  = if String.eqb k k' then Some v else Dict.get k' d.
Proof.
  destruct (String.eqb k k') eqn:E.
  - apply String.eqb_eq in E; subst. apply get_set_same.
  - apply String.eqb_neq in E. now apply get_set_other.
Qed.




(** The files after a run, whatever its result: some of the three outputs
    set, in order, on the files before. *)
Lemma main_files fmt env cfg w r w' :
  main fmt env cfg w = (r, w') ->
  files w' = files w
  \/ exists text,
      files w' = Dict.set PLAYLIST_PATH (TextFile text) (files w)
      \/ exists epg,
          let f2 := Dict.set EPG_PATH (BinaryFile epg)
                      (Dict.set PLAYLIST_PATH (TextFile text) (files w)) in
          files w' = f2
          \/ files w'
             = Dict.set README_PATH (SummaryFile (utcnow env) cfg) f2.
Proof.
  intros H. apply main_cases in H as (_ & _ & C).
  destruct (catalog_result env _) as [data|]; [|tauto].
  destruct (playlist_of fmt cfg data) as [text|]; [|tauto].
  destruct C as [_ C].
  destruct (fetch_result env _ _) as [epg|]; [|tauto].
  destruct (writable env OUTPUT_DIR && writable env PLAYLIST_PATH); [|tauto].
  cbv zeta in C. right. exists text.
  destruct (writable env EPG_PATH); [|tauto].
  right. exists epg. cbv zeta.
  destruct (writable env README_PATH); tauto.
Qed.

(** X15.  Whatever its result, a run leaves every file other than its
    three outputs as it was, and removes no file. *)
Theorem other_files_untouched
        (format_id : string -> string -> result string)
        (env : environment) (cfg : config) (w : world)
        (r : result unit) (w' : world) :
  main format_id env cfg w = (r, w') ->
  (forall path,
      ~ In path output_paths ->
      Dict.get path (files w') = Dict.get path (files w))
  /\ (forall path,
         In path (Dict.keys (files w)) -> In path (Dict.keys (files w'))).
Proof.
  intros H. apply main_files in H.
  assert (K : forall (k path : string) (v : file_content) d,
             In path (Dict.keys d) -> In path (Dict.keys (Dict.set k v d))).
  { intros k path v d I. rewrite keys_set.
    destruct (Dict.mem k d); auto. apply in_or_app. auto. }
  split.
  - intros path N. unfold output_paths in N. simpl in N.
    assert (P : PLAYLIST_PATH <> path) by tauto.
    assert (G : EPG_PATH <> path) by tauto.
    assert (R : README_PATH <> path) by tauto.
    destruct H as [->|(text & [->|(epg & [->| ->])])]; auto;
      repeat rewrite get_set_other by assumption; reflexivity.
  - intros path I.
    destruct H as [->|(text & [->|(epg & [->| ->])])]; auto.
Qed.

(** X14.  A run that succeeds leaves the playlist text the formatter
    returned for the filtered catalog in the playlist file and the summary
    of the settings and the clock reading in the README file. *)
Theorem successful_run_outputs
        (format_id : string -> string -> result string)
        (env : environment) (cfg : config) (w w' : world) :
  main format_id env cfg w = (Ok tt, w') ->
  exists data text,
    catalog_result env (List.length (requests_sent w)) = Ok data
    /\ generate_m3u_playlist format_id cfg data
         (filter_channels data (selected_regions cfg) (selected_groups cfg))
       = Ok text
    /\ Dict.get PLAYLIST_PATH (files w') = Some (TextFile text)
    /\ Dict.get README_PATH (files w')
       = Some (SummaryFile (utcnow env) cfg)
    /\ requests_sent w' = requests_sent w ++ [APP_URL; guide_url cfg].
Proof.
  intros H. pose proof (main_cases _ _ _ _ _ _ H) as (Er & _ & C).
  unfold run_result, can_write in Er.
  destruct (catalog_result env _) as [data|]; [|discriminate].
  cbn [rbind] in Er. exists data.
  destruct (playlist_of format_id cfg data) as [text|] eqn:P; [|discriminate].
  cbn [rbind] in Er. exists text. destruct C as [Rq C].
  destruct (fetch_result env _ _) as [epg|]; [|discriminate].
  cbn [rbind] in Er.
  destruct (writable env OUTPUT_DIR); [|discriminate]. cbn [rbind] in Er.
  destruct (writable env PLAYLIST_PATH); [|discriminate].
  cbn [rbind andb] in Er, C.
  destruct (writable env EPG_PATH); [|discriminate]. cbn [rbind] in Er.
  destruct (writable env README_PATH); [|discriminate].
  cbv zeta in C. rewrite C. repeat split; auto.
  - rewrite !get_set_if. reflexivity.
  - rewrite get_set_if. now rewrite String.eqb_refl.
Qed.

(** X13.  When both downloads and the formatter succeed and only the guide
    file cannot be written, the run fails with that error after it has
    replaced the playlist file: the guide and the README are left as they
    were, out of step with the new playlist. *)
Theorem guide_write_failure
        (format_id : string -> string -> result string)
        (env : environment) (cfg : config) (w : world)
        (r : result unit) (w' : world) (data : catalog) (text : string)
        (epg : bytes) :
  main format_id env cfg w = (r, w') ->
  catalog_result env (List.length (requests_sent w)) = Ok data ->
  playlist_of format_id cfg data = Ok text ->
  fetch_result env (S (List.length (requests_sent w))) (guide_url cfg)
  = Ok epg ->
  writable env OUTPUT_DIR = true ->
  writable env PLAYLIST_PATH = true ->
  writable env EPG_PATH = false ->
  r = Raise (OSError EPG_PATH)
  /\ Dict.get PLAYLIST_PATH (files w') = Some (TextFile text)
  /\ Dict.get EPG_PATH (files w') = Dict.get EPG_PATH (files w)
  /\ Dict.get README_PATH (files w') = Dict.get README_PATH (files w).
Proof.
  intros H Cd P F Wd Wp We.
  pose proof (main_cases _ _ _ _ _ _ H) as (Er & _ & C).
  unfold run_result, can_write in Er.
  rewrite Cd in Er, C. cbn [rbind] in Er. rewrite P in Er, C.
  cbn [rbind] in Er. rewrite F in Er, C. cbn [rbind] in Er.
  rewrite Wd, Wp in Er, C. cbn [rbind andb] in Er, C.
  rewrite We in Er, C. cbn [rbind] in Er. cbv zeta in C.
  destruct C as [_ C]. rewrite C. split; [exact Er|].
  rewrite !get_set_if. repeat split; reflexivity.
Qed.

Lemma fetch_result_same env1 env2 n m url :
  same_answers env1 env2 ->
  fetch_result env2 m url = fetch_result env1 n url.
Proof.
  intros (S & G & _). unfold fetch_result. rewrite (S m n url).
  destruct (server env1 n url) as [status_code content| |]; auto.
  now rewrite G.
Qed.

Lemma run_result_same fmt env1 env2 cfg n m :
  same_answers env1 env2 ->
  catalog_result env2 m = catalog_result env1 n
  /\ run_result fmt env2 cfg m = run_result fmt env1 cfg n.
Proof.
  intros A. pose proof A as (_ & _ & J & W).
  assert (C : catalog_result env2 m = catalog_result env1 n).
  { unfold catalog_result. rewrite (fetch_result_same env1 env2 n m) by exact A.
    destruct (fetch_result env1 n APP_URL); auto. now rewrite J. }
  split; [exact C|]. unfold run_result, can_write.
  rewrite C, (fetch_result_same env1 env2 (S n) (S m)) by exact A.
  now rewrite !W.
Qed.

(** X17.  Running again where the server, the decoders and the file system
    answer as before succeeds again and leaves every file but the README
    as the first run left it; the README is written anew with the new
    clock reading. *)
Theorem rerun_keeps_outputs
        (format_id : string -> string -> result string)
        (env1 env2 : environment) (cfg : config) (w w1 : world) :
  same_answers env1 env2 ->
  main format_id env1 cfg w = (Ok tt, w1) ->
  exists w2,
    main format_id env2 cfg w1 = (Ok tt, w2)
    /\ (forall path,
           path <> README_PATH ->
           Dict.get path (files w2) = Dict.get path (files w1))
    /\ Dict.get README_PATH (files w2)
       = Some (SummaryFile (utcnow env2) cfg).
Proof.
  intros A H1.
  destruct (main format_id env2 cfg w1) as [r2 w2] eqn:H2.
  pose proof (main_cases _ _ _ _ _ _ H1) as (E1 & _ & C1).
  pose proof (main_cases _ _ _ _ _ _ H2) as (E2 & _ & C2).
  destruct (run_result_same format_id env1 env2 cfg
              (List.length (requests_sent w))
              (List.length (requests_sent w1)) A) as (Sc & Sr).
  rewrite Sr, <- E1 in E2. subst r2.
  rewrite Sc in C2.
  rewrite (fetch_result_same env1 env2
             (S (List.length (requests_sent w)))
             (S (List.length (requests_sent w1)))) in C2 by exact A.
  destruct A as (_ & _ & _ & W). rewrite !W in C2.
  unfold run_result, can_write in E1.
  destruct (catalog_result env1 _) as [data|]; [|discriminate].
  cbn [rbind] in E1.
  destruct (playlist_of format_id cfg data) as [text|]; [|discriminate].
  cbn [rbind] in E1. destruct C1 as [_ C1]. destruct C2 as [_ C2].
  destruct (fetch_result env1 _ _) as [epg|]; [|discriminate].
  cbn [rbind] in E1.
  destruct (writable env1 OUTPUT_DIR); [|discriminate]. cbn [rbind] in E1.
  destruct (writable env1 PLAYLIST_PATH); [|discriminate].
  cbn [rbind andb] in E1, C1, C2.
  destruct (writable env1 EPG_PATH); [|discriminate]. cbn [rbind] in E1.
  destruct (writable env1 README_PATH); [|discriminate].
  cbv zeta in C1, C2. exists w2. split; [reflexivity|].
  rewrite C2, C1. split.
  - intros path N. rewrite !get_set_if.
    destruct (String.eqb README_PATH path) eqn:R.
    + apply String.eqb_eq in R. congruence.
    + destruct (String.eqb EPG_PATH path); auto.
      destruct (String.eqb PLAYLIST_PATH path); auto.
  - rewrite get_set_if. now rewrite String.eqb_refl.
Qed.

Lemma NoDup_map_injective {A B : Type} (f : A -> B) (l : list A) :
  (forall x y, f x = f y -> x = y) -> NoDup l -> NoDup (map f l).
Proof.
  intros Inj. induction 1 as [|x l N _ IH]; simpl; constructor; auto.
  intros I. apply in_map_iff in I as (y & E & I).
  apply Inj in E. now subst.
Qed.

Lemma loop_sequential format_id cfg data l :
  START_CHNO cfg <> 1 ->
  forall n es,
    playlist_loop format_id cfg data l n = Ok es ->
    map tvg_chno es
    = map (fun i => n + Z.of_nat i) (seq 0 (List.length es)).
Proof.
  intros N. induction l as [|[channel_id ch] l IH]; intros n es H.
  - injection H as <-. reflexivity.
  - apply loop_cons_inv in H. destruct (skipped cfg ch); [now apply IH|].
    destruct H as (e & n' & es' & F & L & ->).
    apply format_channel_inv in F as (_ & _ & _ & _ & _ & _ & _ & Kf).
    destruct Kf as [Hn ->].
    { unfold keeps_native. apply Z.eqb_neq in N. rewrite N.
      apply andb_false_r. }
    apply IH in L. cbn [map List.length seq]. rewrite L, Hn.
    f_equal; [lia|]. rewrite <- seq_shift, map_map.
    apply map_ext. intros i. lia.
Qed.

(** X18.  With a start number other than 1 the entries are numbered
    consecutively from it in playlist order, so no two entries share a
    number, whatever numbers the channels have of their own. *)
Theorem sequential_numbers_distinct
        (format_id : string -> string -> result string)
        (cfg : config) (data : catalog) (chans : dict channel)
        (es : list entry) :
  START_CHNO cfg <> 1 ->
  playlist_entries format_id cfg data chans = Ok es ->
  map tvg_chno es
  = map (fun i => START_CHNO cfg + Z.of_nat i) (seq 0 (List.length es))
  /\ NoDup (map tvg_chno es).
Proof.
  intros N H. unfold playlist_entries in H.
  apply (loop_sequential _ _ _ _ N) in H. split; [exact H|].
  rewrite H. apply NoDup_map_injective; [intros x y; lia | apply seq_NoDup].
Qed.


Lemma other_files_untouched_witness :
  main format_id_simple Examples.healthy Examples.defaults Examples.fresh
  = (Ok tt,
     snd (main format_id_simple Examples.healthy Examples.defaults
            Examples.fresh))
  /\ forall path,
      ~ In path output_paths ->
      Dict.get path
        (files (snd (main format_id_simple Examples.healthy
                       Examples.defaults Examples.fresh)))
      = Dict.get path (files Examples.fresh).
Proof.
  split; [reflexivity|].
  now destruct (other_files_untouched format_id_simple Examples.healthy
                  Examples.defaults Examples.fresh (Ok tt) _ eq_refl)
    as (U & _).
Defined.

Lemma successful_run_outputs_witness :
  main format_id_simple Examples.healthy Examples.defaults Examples.fresh
  = (Ok tt,
     snd (main format_id_simple Examples.healthy Examples.defaults
            Examples.fresh))
  /\ exists data text,
      catalog_result Examples.healthy 0 = Ok data
      /\ generate_m3u_playlist format_id_simple Examples.defaults data
           (filter_channels data (selected_regions Examples.defaults)
              (selected_groups Examples.defaults))
         = Ok text
      /\ Dict.get PLAYLIST_PATH
           (files (snd (main format_id_simple Examples.healthy
                          Examples.defaults Examples.fresh)))
         = Some (TextFile text).
Proof.
  split; [reflexivity|].
  destruct (successful_run_outputs format_id_simple Examples.healthy
              Examples.defaults Examples.fresh _ eq_refl)
    as (data & text & C & G & P & _).
  exists data, text. auto.
Defined.

Lemma guide_write_failure_witness :
  writable guide_read_only EPG_PATH = false
  /\ writable guide_read_only PLAYLIST_PATH = true
  /\ fst (main format_id_simple guide_read_only Examples.defaults
            Examples.fresh)
     = Raise (OSError EPG_PATH).
Proof.
  split; [reflexivity|]. split; [reflexivity|].
  destruct (guide_write_failure format_id_simple guide_read_only
              Examples.defaults Examples.fresh
              (fst (main format_id_simple guide_read_only Examples.defaults
                      Examples.fresh))
              (snd (main format_id_simple guide_read_only Examples.defaults
                      Examples.fresh))
              Examples.scenario
              (example_playlist Examples.defaults Examples.scenario
                 (filter_channels Examples.scenario ["all"%string] []))
              Examples.epg_xml
              eq_refl eq_refl eq_refl eq_refl eq_refl eq_refl eq_refl)
    as (R & _).
  exact R.
Defined.

Lemma rerun_keeps_outputs_witness :
  same_answers Examples.healthy next_day
  /\ main format_id_simple Examples.healthy Examples.defaults Examples.fresh
     = (Ok tt,
        snd (main format_id_simple Examples.healthy Examples.defaults
               Examples.fresh))
  /\ exists w2,
      main format_id_simple next_day Examples.defaults
        (snd (main format_id_simple Examples.healthy Examples.defaults
                Examples.fresh))
      = (Ok tt, w2)
      /\ Dict.get README_PATH (files w2)
         = Some (SummaryFile (utcnow next_day) Examples.defaults).
Proof.
  assert (A : same_answers Examples.healthy next_day)
    by (repeat split; intros; reflexivity).
  split; [exact A|]. split; [reflexivity|].
  destruct (rerun_keeps_outputs format_id_simple Examples.healthy next_day
              Examples.defaults Examples.fresh _ A eq_refl)
    as (w2 & M & _ & R).
  exists w2. auto.
Defined.

Lemma sequential_numbers_distinct_witness :
  START_CHNO Examples.from_5 <> 1
  /\ playlist_entries format_id_simple Examples.from_5 Examples.scenario
       Examples.mixed_numbers
     = Ok (Examples.entries_of Examples.from_5 Examples.scenario
             Examples.mixed_numbers)
  /\ map tvg_chno
       (Examples.entries_of Examples.from_5 Examples.scenario
          Examples.mixed_numbers)
     = [5; 6; 7].
Proof.
  split; [discriminate|]. split; [reflexivity|].
  now destruct (sequential_numbers_distinct format_id_simple Examples.from_5
                  Examples.scenario Examples.mixed_numbers _
                  ltac:(discriminate) eq_refl) as (S & _).
Defined.
